(** * gfsnotify: recursive file watching over a native notification source

    A shallow embedding of [g/os/gfsnotify/gfsnotify.go]: the callback
    registry, [addWatch]/[Add], [removeWatch]/[Remove], the hierarchical
    lookup [getCallbacks] and one iteration of the event loop, together with
    the properties the specification states about them. *)

From Stdlib Require Import ZArith String Ascii List Lia Bool.
From stdpp Require Import base option list gmap strings.

Local Open Scope string_scope.
#[local] Set Warnings "-clear-no-such-hyp".

(** ** Slash-separated paths: the lexical part of [gfile.Dir] *)

Module filepath.

Definition is_sep (c : ascii) : bool := Ascii.eqb c "/"%char.

(** A path is rooted when its first byte is the separator. *)
Definition rooted (path : string) : bool :=
  match path with
  | String c _ => is_sep c
  | EmptyString => false
  end.

(** The elements between separators; empty elements are kept. *)
Fixpoint split (path : string) : list string :=
  match path with
  | EmptyString => [EmptyString]
  | String c rest =>
      if is_sep c then EmptyString :: split rest
      else match split rest with
           | x :: xs => String c x :: xs
           | [] => [String c EmptyString]
           end
  end.

Fixpoint join (elems : list string) : string :=
  match elems with
  | [] => ""
  | e :: es =>
      match es with
      | [] => e
      | _ :: _ => e ++ "/" ++ join es
      end
  end.

(** One turn of the loop of [Clean]: [out] is the output buffer, as the
    stack of the elements written so far (last written first).  Empty and
    [.] elements are skipped; [..] removes the last written element when
    there is one to backtrack over, is dropped at the root, and is written
    out when the buffer holds nothing but the leading [..] elements of a
    relative path. *)
Definition clean_elem (is_rooted : bool) (out : list string) (e : string)
    : list string :=
  if (e =? "") || (e =? ".") then out
  else if e =? ".." then
    match out with
    | top :: out' =>
        if top =? ".." then (if is_rooted then out else e :: out) else out'
    | [] => if is_rooted then [] else [e]
    end
  else e :: out.

(** Modelled from the spec: [gfile.Dir] (the spec's
    [parentDirectory(path)]) is not among the sources; it is a thin wrapper
    of Go's [path/filepath.Dir], whose Unix behaviour is written out here.
    [Clean] returns the shortest lexically equivalent path: separators are
    collapsed, [.] elements dropped, [..] elements resolved, an empty
    result becomes [.], and a rooted path stays rooted. *)
Definition Clean (path : string) : string :=
  if path =? "" then "."
  else
    let r := rooted path in
    let out := rev (fold_left (clean_elem r) (split path) []) in
    if r then "/" ++ join out
    else match out with
         | [] => "."
         | _ :: _ => join out
         end.

Fixpoint has_sep (path : string) : bool :=
  match path with
  | EmptyString => false
  | String c rest => is_sep c || has_sep rest
  end.

(** [path[:i+1]] for [i] the index of the last separator of [path]
    (the empty string when there is none). *)
Fixpoint upto_last_sep (path : string) : string :=
  match path with
  | EmptyString => EmptyString
  | String c rest =>
      if has_sep path then String c (upto_last_sep rest) else EmptyString
  end.

(** Modelled from the spec: [gfile.Dir], see [Clean].  All but the last
    element of [path], cleaned. *)
Definition Dir (path : string) : string := Clean (upto_last_sep path).

(** Measures used to bound [Clean]: the bytes an element list takes when
    written out, every element and one separator each; and the same,
    leaving out the empty elements. *)
Definition weight (elems : list string) : nat :=
  list_sum (map (fun e => S (String.length e)) elems).

Definition weight_ne (elems : list string) : nat :=
  weight (List.filter (fun e => negb (e =? "")) elems).

(** What the buffer of a relative path holds: elements that are not empty
    and do not begin with the separator. *)
Definition relative_elem (e : string) : Prop := e <> "" /\ rooted e = false.

End filepath.

(** ** Data model *)

(** [type Op uint32], a bit set. *)
Definition Op := Z.

Definition CREATE : Op := Z.shiftl 1 0.
Definition WRITE : Op := Z.shiftl 1 1.
Definition REMOVE : Op := Z.shiftl 1 2.
Definition RENAME : Op := Z.shiftl 1 3.

(** [type Event struct]; the back reference to the watcher is never set by
    the code at hand and is left out. *)
Record Event := mkEvent { Path : string; EvOp : Op }.

(** Modelled from the spec: the methods [Event.IsCreate] and
    [Event.IsRemove] are declared in another file of the package; the spec
    has them test membership of the bit with a bitwise AND. *)
Definition IsCreate (e : Event) : bool :=
  Z.eqb (Z.land (EvOp e) CREATE) CREATE.
Definition IsRemove (e : Event) : bool :=
  Z.eqb (Z.land (EvOp e) REMOVE) REMOVE.

(** The [gfile] helpers the watcher consults, as one snapshot of the
    filesystem: [RealPath] answers the empty string for a path that does not
    exist, [ScanDir path] is the recursive listing
    [gfile.ScanDir] with the pattern matching every name (its error is discarded by every
    caller). *)
Record FileSystem := mkFS {
  RealPath : string -> string;
  IsDir : string -> bool;
  Exists : string -> bool;
  ScanDir : string -> list string
}.

(** Go [error] values of the package: the one built by [addWatch] and
    whatever the native watcher reports. *)
Inductive error :=
| DoesNotExist (path : string)
| NativeError (msg : string).

(** The native source, [*fsnotify.Watcher]: subscribing and unsubscribing a
    path change its state and may report an error. *)
Class NativeSource (Native : Type) := {
  fsnotify_Add : string -> Native -> Native * option error;
  fsnotify_Remove : string -> Native -> Native * option error
}.

Section Watcher.
Context {Native : Type} `{!NativeSource Native} {Callback : Type}.

(** [type Watcher struct]: the native handle and the registry, a map from
    path to the list of callbacks in registration order.  The event queue
    is the argument of [eventLoop]. *)
Record Watcher := mkWatcher {
  watcher : Native;
  callbacks : gmap string (list Callback)
}.

(** [func (w *Watcher) addWatch(path, callback) error] *)
Definition addWatch (fs : FileSystem) (w : Watcher) (path : string)
    (callback : Callback) : Watcher * option error :=
  let t := RealPath fs path in
  if t =? "" then (w, Some (DoesNotExist path))
  else
    let m :=
      match callbacks w !! t with
      | None => <[t := [callback]]> (callbacks w)
      | Some v => <[t := (v ++ [callback])%list]> (callbacks w)
      end in
    (* the result of the native Add is dropped *)
    let '(n, _) := fsnotify_Add t (watcher w) in
    (mkWatcher n m, None).

(** The loop [for _, v := range list] of [Add], leaving at the first
    error. *)
Fixpoint addWatches (fs : FileSystem) (w : Watcher) (list : list string)
    (callback : Callback) : Watcher * option error :=
  match list with
  | [] => (w, None)
  | v :: rest =>
      match addWatch fs w v callback with
      | (w', Some err) => (w', Some err)
      | (w', None) => addWatches fs w' rest callback
      end
  end.

(** [func (w *Watcher) Add(path, callback, recursive ...bool) error] *)
Definition Add (fs : FileSystem) (w : Watcher) (path : string)
    (callback : Callback) (recursive : list bool) : Watcher * option error :=
  if IsDir fs path && (Nat.eqb (length recursive) 0 || hd false recursive)
  then addWatches fs w (path :: ScanDir fs path) callback
  else addWatch fs w path callback.

(** [func (w *Watcher) removeWatch(path) error] *)
Definition removeWatch (w : Watcher) (path : string)
    : Watcher * option error :=
  let m := delete path (callbacks w) in
  let '(n, err) := fsnotify_Remove path (watcher w) in
  (mkWatcher n m, err).

Fixpoint removeWatches (w : Watcher) (list : list string)
    : Watcher * option error :=
  match list with
  | [] => (w, None)
  | v :: rest =>
      match removeWatch w v with
      | (w', Some err) => (w', Some err)
      | (w', None) => removeWatches w' rest
      end
  end.

(** [func (w *Watcher) Remove(path) error] *)
Definition Remove (fs : FileSystem) (w : Watcher) (path : string)
    : Watcher * option error :=
  if IsDir fs path
  then removeWatches w (path :: ScanDir fs path)
  else removeWatch w path.

(** A [*glist.List] value.  A list is created by [addWatch] only, and is
    stored under one key of the registry: the pointer is named by that
    key, [None] is the nil pointer. *)
Definition ListPtr := option string.

(** [func (w *Watcher) getCallbacks(path) *glist.List].  The loop has no
    bound of its own; [fuel] bounds the number of turns and [None] says
    that the fuel ran out before the loop returned. *)
Fixpoint getCallbacks (fuel : nat) (w : Watcher) (path : string)
    : option ListPtr :=
  match fuel with
  | O => None
  | S fuel' =>
      if path =? "/" then Some None
      else
        match callbacks w !! path with
        | Some _ => Some (Some path)
        | None => getCallbacks fuel' w (filepath.Dir path)
        end
  end.

(** [FrontAll] of [glist.List]: the elements of the list; the method locks
    the mutex held in the list, so calling it through the nil pointer is a
    nil dereference ([None] here). *)
Definition FrontAll (w : Watcher) (l : ListPtr) : option (list Callback) :=
  match l with
  | None => None
  | Some key => Some (default [] (callbacks w !! key))
  end.

(** What one turn of the event loop ends in: the unit started for the
    event with the callbacks it runs, nothing, or a panic of the loop's
    goroutine. *)
Inductive Outcome :=
| Dispatched (w : Watcher) (event : Event) (cbs : list Callback)
| Dropped (w : Watcher) (event : Event)
| Panicked (w : Watcher) (event : Event).

(** The [if event.IsRemove()] block of the loop. *)
Definition reconcile (fs : FileSystem) (w : Watcher) (event : Event)
    : Watcher * Event :=
  if IsRemove event then
    if Exists fs (Path event) then
      let '(n, _) := fsnotify_Add (Path event) (watcher w) in
      (mkWatcher n (callbacks w), mkEvent (Path event) RENAME)
    else (fst (Remove fs w (Path event)), event)
  else (w, event).

(** The [if event.IsCreate() && gfile.IsDir(event.Path)] block: [Add] is
    run once per callback of the list as it was when the loop started;
    its error is dropped. *)
Definition expand (fs : FileSystem) (w : Watcher) (event : Event)
    (l : ListPtr) : option Watcher :=
  if IsCreate event && IsDir fs (Path event) then
    match FrontAll w l with
    | None => None
    | Some cbs =>
        Some (fold_left
                (fun w' cb => fst (Add fs w' (Path event) cb [])) cbs w)
    end
  else Some w.

(** The body of the loop of [startEventLoop] for one popped event.  The
    unit started by [go func(callbacks)] reads the list when it runs; it
    is taken here as it is when the unit is started. *)
Definition eventStep (fuel : nat) (fs : FileSystem) (w : Watcher)
    (event : Event) : option Outcome :=
  let '(w1, event1) := reconcile fs w event in
  match getCallbacks fuel w1 (Path event1) with
  | None => None
  | Some l =>
      match expand fs w1 event1 l with
      | None => Some (Panicked w1 event1)
      | Some w2 =>
          match FrontAll w2 l with
          | None => Some (Dropped w2 event1)
          | Some cbs => Some (Dispatched w2 event1 cbs)
          end
      end
  end.

(** How the loop ends on a queue: drained, or stopped by a panic. *)
Inductive LoopEnd :=
| Drained (w : Watcher) (units : list (Event * list Callback))
| Crashed (w : Watcher) (units : list (Event * list Callback))
    (event : Event).

(** [startEventLoop] on the events popped from the queue, each with the
    filesystem as it is when the event is popped; [units] collects the
    dispatch units started so far. *)
Fixpoint eventLoop (fuel : nat) (w : Watcher)
    (queue : list (FileSystem * Event))
    (units : list (Event * list Callback)) : option LoopEnd :=
  match queue with
  | [] => Some (Drained w units)
  | (fs, event) :: rest =>
      match eventStep fuel fs w event with
      | None => None
      | Some (Dispatched w' event' cbs) =>
          eventLoop fuel w' rest (units ++ [(event', cbs)])%list
      | Some (Dropped w' _) => eventLoop fuel w' rest units
      | Some (Panicked w' event') => Some (Crashed w' units event')
      end
  end.

End Watcher.

Arguments Watcher : clear implicits.
Arguments Outcome : clear implicits.
Arguments LoopEnd : clear implicits.

(** The registry after [cb] is pushed on the list of key [t]. *)
Definition register {Callback : Type} (m : gmap string (list Callback))
    (t : string) (cb : Callback) : gmap string (list Callback) :=
  <[t := (default [] (m !! t) ++ [cb])%list]> m.

(** The paths [Add] hands to [addWatch], in order. *)
Definition members (fs : FileSystem) (path : string) (recursive : list bool)
    : list string :=
  if IsDir fs path && (Nat.eqb (length recursive) 0 || hd false recursive)
  then path :: ScanDir fs path
  else [path].

(** The watcher an outcome leaves behind, and the event as dispatched. *)
Definition outcome_watcher {Native Callback : Type}
    (o : Outcome Native Callback) : Watcher Native Callback :=
  match o with
  | Dispatched w _ _ | Dropped w _ | Panicked w _ => w
  end.


(** Registry keys and resolved paths of a kind [Canon] (canonical absolute
    paths): a filesystem resolves to such paths only, a registry is keyed by
    such paths only. *)
Definition canonical_fs (Canon : string -> Prop) (fs : FileSystem) : Prop :=
  forall p, RealPath fs p <> "" -> Canon (RealPath fs p).

Definition keys_canonical {Native Callback : Type} (Canon : string -> Prop)
    (w : Watcher Native Callback) : Prop :=
  forall k, is_Some (callbacks w !! k) -> Canon k.

(** The [k]-th parent of a path: [filepath.Dir] applied [k] times. *)
Fixpoint ancestor (k : nat) (path : string) : string :=
  match k with
  | O => path
  | S k' => ancestor k' (filepath.Dir path)
  end.

(** ** A native source and filesystems for the examples *)

Module inotify.

(** A native source with the set of subscribed paths and the number of
    subscriptions it still has room for.  Subscribing fails when there is
    no room left; unsubscribing a path that is not subscribed fails. *)
Record State := mkState { watches : list string; room : nat }.

Definition subscribed (path : string) (s : State) : bool :=
  existsb (String.eqb path) (watches s).

Definition add (path : string) (s : State) : State * option error :=
  if subscribed path s then (s, None)
  else
    match room s with
    | O => (s, Some (NativeError "no space left on device"))
    | S r => (mkState (path :: watches s) r, None)
    end.

Definition remove (path : string) (s : State) : State * option error :=
  if subscribed path s
  then (mkState (List.filter (fun p => negb (String.eqb path p)) (watches s))
                (S (room s)), None)
  else (s, Some (NativeError "can't remove non-existent watch")).

#[global] Instance source : NativeSource State :=
  {| fsnotify_Add := add; fsnotify_Remove := remove |}.

End inotify.

(** A filesystem given by the list of its entries, each an absolute path
    and whether it is a directory; every path is spelled canonically or with
    one trailing separator. *)
Module testfs.

Definition entry := (string * bool)%type.

Definition strip (path : string) : string :=
  match rev (list_ascii_of_string path) with
  | c :: (_ :: _) as rest =>
      if filepath.is_sep c then string_of_list_ascii (rev rest) else path
  | _ => path
  end.

Definition find (entries : list entry) (path : string) : option entry :=
  List.find (fun e => String.eqb (fst e) (strip path)) entries.

Definition under (dir path : string) : bool :=
  String.prefix (dir ++ "/") path.

Definition make (entries : list entry) : FileSystem :=
  {| RealPath := fun p => match find entries p with
                          | Some e => fst e
                          | None => ""
                          end;
     IsDir := fun p => match find entries p with
                       | Some e => snd e
                       | None => false
                       end;
     Exists := fun p => match find entries p with
                        | Some _ => true
                        | None => false
                        end;
     ScanDir := fun p =>
       map fst (List.filter (fun e => under (strip p) (fst e)) entries) |}.

End testfs.

Module scenario.

(** A watched directory with a file, a subdirectory and a file in it. *)
Definition tree : FileSystem :=
  testfs.make [("/tmp/w", true); ("/tmp/w/a.txt", false);
               ("/tmp/w/sub", true); ("/tmp/w/sub/b", false)].

(** The same after the subdirectory and what is in it were deleted. *)
Definition pruned : FileSystem :=
  testfs.make [("/tmp/w", true); ("/tmp/w/a.txt", false)].

(** [tree] where the subdirectory is listed but is gone when it is
    resolved. *)
Definition vanishing : FileSystem :=
  {| RealPath := fun p =>
       if p =? "/tmp/w/sub" then "" else RealPath tree p;
     IsDir := IsDir tree;
     Exists := Exists tree;
     ScanDir := ScanDir tree |}.

(** The root directory with one directory in it. *)
Definition rootfs : FileSystem :=
  testfs.make [("/", true); ("/data", true)].

(** A watcher that watches nothing yet, and one whose native source has
    no room for a subscription. *)
Definition fresh : Watcher inotify.State nat :=
  mkWatcher (inotify.mkState [] 8) ∅.

Definition full : Watcher inotify.State nat :=
  mkWatcher (inotify.mkState [] 0) ∅.

(** [fresh] after [Add("/tmp/w", cb)] on [tree], and after
    [Add("/", cb, false)] on [rootfs]; the callback is number 7. *)
Definition watching : Watcher inotify.State nat :=
  (Add tree fresh "/tmp/w" 7 []).1.

Definition watching_root : Watcher inotify.State nat :=
  (Add rootfs fresh "/" 7 [false]).1.

Definition absolute (k : string) : Prop := filepath.rooted k = true.

End scenario.

(** ** The intake loop and the entry points of the package *)

(** What the [select] of [startWatchLoop] receives in one turn: the close
    signal, a native event with its name and operation bits, or a native
    error. *)
Inductive Received :=
| CloseSignal
| NativeEvent (name : string) (op : Z)
| NativeErr (msg : string).

(** The goroutine of [startWatchLoop] on the values its [select] receives,
    in order: a native event is pushed on the queue as an [Event] with the
    same path and bits, a native error is logged, the close signal ends the
    loop.  [events] is the queue and [log] the log written so far. *)
Fixpoint watchLoop (received : list Received) (events : list Event)
    (log : list string) : list Event * list string :=
  match received with
  | [] => (events, log)
  | CloseSignal :: _ => (events, log)
  | NativeEvent name op :: rest =>
      watchLoop rest (events ++ [mkEvent name op])%list log
  | NativeErr msg :: rest => watchLoop rest events (log ++ [msg])%list
  end.

(** The event a received value is forwarded as, and the line it is logged
    as. *)
Definition as_event (r : Received) : option Event :=
  match r with
  | NativeEvent name op => Some (mkEvent name op)
  | _ => None
  end.

Definition as_logged (r : Received) : option string :=
  match r with
  | NativeErr msg => Some msg
  | _ => None
  end.

(** The errors of the package-level functions: the one they build when the
    global watcher is nil, or the error of the watcher's method. *)
Inductive api_error :=
| GlobalWatcherFailed
| WatcherError (e : error).

Module gfsnotify.
Section Package.
Context {Native : Type} `{!NativeSource Native} {Callback : Type}.

(** [func New()] on the result of [fsnotify.NewWatcher()]: a watcher
    with an empty registry, or nil and the error. *)
Definition New (native : Native + error)
    : option (Watcher Native Callback) * option error :=
  match native with
  | inl watch => (Some (mkWatcher watch ∅), None)
  | inr err => (None, Some err)
  end.

(** [var watcher, _ = New()]: the error is dropped. *)
Definition global (native : Native + error)
    : option (Watcher Native Callback) :=
  (New native).1.

(** [func Add(path, callback, recursive ...bool) error] of the package, on
    the global watcher. *)
Definition Add (g : option (Watcher Native Callback)) (fs : FileSystem)
    (path : string) (callback : Callback) (recursive : list bool)
    : option (Watcher Native Callback) * option api_error :=
  match g with
  | None => (None, Some GlobalWatcherFailed)
  | Some w =>
      let '(w', err) := Add fs w path callback recursive in
      (Some w', WatcherError <$> err)
  end.

(** [func Remove(path) error] of the package. *)
Definition Remove (g : option (Watcher Native Callback)) (fs : FileSystem)
    (path : string) : option (Watcher Native Callback) * option api_error :=
  match g with
  | None => (None, Some GlobalWatcherFailed)
  | Some w =>
      let '(w', err) := Remove fs w path in
      (Some w', WatcherError <$> err)
  end.

End Package.
End gfsnotify.

(** The paths [Remove] hands to [removeWatch], in order. *)
Definition removal_members (fs : FileSystem) (path : string) : list string :=
  if IsDir fs path then path :: ScanDir fs path else [path].

(** The native source after the paths of a list were unsubscribed one
    after the other, when none of the unsubscriptions failed. *)
Fixpoint unsubscribed {Native : Type} `{!NativeSource Native} (n : Native)
    (l : list string) : option Native :=
  match l with
  | [] => Some n
  | v :: rest =>
      match fsnotify_Remove v n with
      | (n', None) => unsubscribed n' rest
      | (_, Some _) => None
      end
  end.

(** The registry after the keys of a list were deleted, first to last. *)
Definition delete_all {Callback : Type} (l : list string)
    (m : gmap string (list Callback)) : gmap string (list Callback) :=
  fold_left (fun m' k => delete k m') l m.

(** No entry of the registry holds an empty list. *)
Definition lists_nonempty {Native Callback : Type}
    (w : Watcher Native Callback) : Prop :=
  forall k lst, callbacks w !! k = Some lst -> lst <> [].

Module more_scenarios.

(** A process whose working directory is [/tmp/w]: the relative spelling
    [a.txt] resolves to [/tmp/w/a.txt]. *)
Definition in_workdir : FileSystem :=
  {| RealPath := fun p =>
       if p =? "a.txt" then "/tmp/w/a.txt" else RealPath scenario.tree p;
     IsDir := IsDir scenario.tree;
     Exists := fun p => (p =? "a.txt") || Exists scenario.tree p;
     ScanDir := ScanDir scenario.tree |}.

(** [scenario.tree] after the empty directory [/tmp/w/new] was made. *)
Definition grown : FileSystem :=
  testfs.make [("/tmp/w", true); ("/tmp/w/a.txt", false);
               ("/tmp/w/sub", true); ("/tmp/w/sub/b", false);
               ("/tmp/w/new", true)].

(** The registry of [scenario.watching] over a native source that holds
    the subscription of the directory [/tmp/w] only. *)
Definition half_subscribed : Watcher inotify.State nat :=
  mkWatcher (inotify.mkState ["/tmp/w"] 7) (callbacks scenario.watching).

End more_scenarios.

(** ** Facts about paths *)

Module filepath_facts.
Import filepath.

Example Dir_nested : Dir "/tmp/w/a.txt" = "/tmp/w".
Proof. reflexivity. Qed.
Example Dir_top : Dir "/tmp" = "/".
Proof. reflexivity. Qed.
Example Dir_trailing : Dir "/tmp/w/" = "/tmp/w".
Proof. reflexivity. Qed.
Example Dir_dotdot : Dir "/a/../b" = "/".
Proof. reflexivity. Qed.
Example Dir_relative : Dir "w/a.txt" = "w".
Proof. reflexivity. Qed.
Example Dir_plain : Dir "a.txt" = ".".
Proof. reflexivity. Qed.
Example Dir_dot : Dir "." = ".".
Proof. reflexivity. Qed.
Example Dir_updir : Dir "../x/../../y" = "../..".
Proof. reflexivity. Qed.

Lemma is_sep_eq c : is_sep c = true -> c = "/"%char.
Proof. unfold is_sep. apply Ascii.eqb_eq. Qed.

Lemma weight_app l1 l2 : weight (l1 ++ l2)%list = weight l1 + weight l2.
Proof. unfold weight. now rewrite map_app, list_sum_app. Qed.

Lemma weight_rev l : weight (rev l) = weight l.
Proof.
  induction l as [|e l IH]; [reflexivity|].
  simpl rev. rewrite weight_app, IH. unfold weight. simpl. lia.
Qed.

Lemma weight_ne_le l : weight_ne l <= weight l.
Proof.
  unfold weight_ne, weight.
  induction l as [|e l IH]; simpl; [lia|].
  destruct (e =? ""); simpl; lia.
Qed.

Lemma weight_ne_app l1 l2 :
  weight_ne (l1 ++ l2)%list = weight_ne l1 + weight_ne l2.
Proof. unfold weight_ne. now rewrite List.filter_app, weight_app. Qed.

Lemma weight_split s : weight (split s) = S (String.length s).
Proof.
  induction s as [|c s IH]; [reflexivity|].
  simpl split. destruct (is_sep c).
  - change (weight ("" :: split s)) with (1 + weight (split s)).
    rewrite IH. reflexivity.
  - destruct (split s) as [|x xs]; [discriminate IH|].
    unfold weight in *. simpl in *. lia.
Qed.

Lemma length_append (a b : string) :
  String.length (a ++ b) = String.length a + String.length b.
Proof. induction a as [|c a IH]; simpl; [reflexivity | now rewrite IH]. Qed.

Lemma length_join l : String.length (join l) = pred (weight l).
Proof.
  induction l as [|e l IH]; [reflexivity|].
  destruct l as [|e' l].
  - unfold weight. simpl. lia.
  - change (join (e :: e' :: l)) with (e ++ "/" ++ join (e' :: l)).
    rewrite !length_append, IH.
    unfold weight. simpl. lia.
Qed.

Lemma has_sep_false_upto s : has_sep s = false -> upto_last_sep s = "".
Proof. destruct s as [|c s]; [reflexivity|]. intros H. cbn [upto_last_sep].
       now rewrite H. Qed.

Lemma length_upto_last_sep s :
  String.length (upto_last_sep s) <= String.length s.
Proof.
  induction s as [|c s IH]; [reflexivity|].
  cbn [upto_last_sep]. destruct (has_sep (String c s)); simpl; lia.
Qed.

(** The part up to the last separator ends in an empty element. *)
Lemma split_upto_last_sep s :
  has_sep s = true ->
  exists x l, split (upto_last_sep s) = (x :: l ++ [""])%list.
Proof.
  induction s as [|c s IH]; [discriminate|].
  intros H. cbn [upto_last_sep]. rewrite H. simpl split.
  simpl in H. destruct (is_sep c) eqn:Hc.
  - destruct (has_sep s) eqn:Hs.
    + destruct (IH eq_refl) as (x & l & ->). now exists "", (x :: l).
    + rewrite (has_sep_false_upto _ Hs). now exists "", [].
  - simpl in H. destruct (IH H) as (x & l & ->). now exists (String c x), l.
Qed.

Lemma weight_ne_split_upto s :
  weight_ne (split (upto_last_sep s)) <= String.length s.
Proof.
  destruct (has_sep s) eqn:Hs.
  - destruct (split_upto_last_sep s Hs) as (x & l & E).
    pose proof (weight_split (upto_last_sep s)) as W.
    pose proof (length_upto_last_sep s) as L.
    rewrite E in *.
    change (x :: l ++ [""])%list with ((x :: l) ++ [""])%list in *.
    rewrite weight_app in W. rewrite weight_ne_app.
    pose proof (weight_ne_le (x :: l)).
    change (weight_ne [""]) with 0. change (weight [""]) with 1 in W. lia.
  - rewrite (has_sep_false_upto _ Hs). cbn. lia.
Qed.

(** Below the root an element is written or an element is taken back:
    the buffer never holds more than the elements read. *)
Lemma clean_elem_weight out e :
  weight (clean_elem true out e) <= weight out + weight_ne [e].
Proof.
  unfold clean_elem, weight_ne. simpl List.filter.
  destruct (e =? "") eqn:E1; simpl; [lia|].
  destruct (e =? "."); [lia|].
  destruct (e =? "..").
  - destruct out as [|top out]; [lia|].
    destruct (top =? ".."); [lia|]. unfold weight. simpl. lia.
  - unfold weight. simpl. lia.
Qed.

Lemma fold_clean_weight elems out :
  weight (fold_left (clean_elem true) elems out)
  <= weight out + weight_ne elems.
Proof.
  revert out. induction elems as [|e elems IH]; intros out; simpl.
  - unfold weight_ne. simpl. change (weight []) with 0. lia.
  - specialize (IH (clean_elem true out e)).
    pose proof (clean_elem_weight out e).
    change (e :: elems) with ([e] ++ elems)%list.
    rewrite weight_ne_app. lia.
Qed.

(** [Dir] strictly shortens every rooted path but the root. *)
Lemma Dir_shorter path :
  rooted path = true -> path <> "/" ->
  String.length (Dir path) < String.length path.
Proof.
  destruct path as [|c rest]; [discriminate|].
  simpl rooted. intros Hc Hne.
  apply is_sep_eq in Hc. subst c.
  assert (rest <> "") as Hrest by (intros ->; now apply Hne).
  unfold Dir. cbn [upto_last_sep has_sep]. change (is_sep "/") with true.
  cbn [orb]. unfold Clean. cbn [String.eqb rooted]. 
  change (is_sep "/") with true. cbv iota.
  cbn [split]. change (is_sep "/") with true. cbv iota.
  cbn [fold_left]. change (clean_elem true [] "") with (@nil string).
  change ("/" ++ ?x) with (String "/" x).
  cbn [String.length append]. rewrite length_join, weight_rev.
  pose proof (fold_clean_weight (split (upto_last_sep rest)) []).
  pose proof (weight_ne_split_upto rest).
  change (weight []) with 0 in *.
  destruct rest; [congruence|]. simpl String.length in *. lia.
Qed.

Lemma Clean_rooted path : rooted path = true -> rooted (Clean path) = true.
Proof.
  intros H. unfold Clean. destruct path as [|c rest]; [discriminate|].
  cbn [String.eqb]. rewrite H. reflexivity.
Qed.

Lemma rooted_upto_last_sep path :
  rooted (upto_last_sep path) = rooted path.
Proof.
  destruct path as [|c rest]; [reflexivity|].
  cbn [upto_last_sep has_sep rooted].
  destruct (is_sep c) eqn:Hc; cbn [orb]; [exact Hc|].
  destruct (has_sep rest); [exact Hc | reflexivity].
Qed.

Lemma Dir_rooted path : rooted path = true -> rooted (Dir path) = true.
Proof.
  intros H. apply Clean_rooted. now rewrite rooted_upto_last_sep.
Qed.

Lemma split_no_sep s : Forall (fun e => has_sep e = false) (split s).
Proof.
  induction s as [|c s IH]; [repeat constructor|].
  simpl split. destruct (is_sep c) eqn:Hc.
  - now constructor.
  - destruct (split s) as [|x xs]; [repeat constructor; simpl; now rewrite Hc|].
    inversion IH as [|? ? Hx Hxs]; subst. constructor; [|assumption].
    simpl. now rewrite Hc, Hx.
Qed.

Lemma has_sep_false_rooted e : has_sep e = false -> rooted e = false.
Proof.
  destruct e as [|c e]; [reflexivity|]. simpl.
  now destruct (is_sep c).
Qed.

Lemma clean_elem_relative r out e :
  rooted e = false -> Forall relative_elem out ->
  Forall relative_elem (clean_elem r out e).
Proof.
  intros He Hout. unfold clean_elem.
  destruct (e =? "") eqn:E1; simpl; [assumption|].
  apply String.eqb_neq in E1.
  destruct (e =? "."); [assumption|].
  destruct (e =? "..").
  - destruct out as [|top out].
    + destruct r; repeat constructor; assumption.
    + inversion Hout; subst.
      destruct (top =? ".."); [|assumption].
      destruct r; [assumption|]. constructor; [split|]; assumption.
  - constructor; [split|]; assumption.
Qed.

Lemma fold_clean_relative r elems out :
  Forall (fun e => rooted e = false) elems -> Forall relative_elem out ->
  Forall relative_elem (fold_left (clean_elem r) elems out).
Proof.
  revert out. induction elems as [|e elems IH]; intros out He Hout;
    [assumption|].
  inversion He; subst. simpl. apply IH; [assumption|].
  now apply clean_elem_relative.
Qed.

Lemma rooted_join l : Forall relative_elem l -> rooted (join l) = false.
Proof.
  destruct l as [|e l]; [reflexivity|].
  intros H. inversion H as [|? ? [Hne Hr] _]; subst.
  destruct e as [|c e]; [congruence|].
  simpl in Hr. destruct l; simpl; assumption.
Qed.

Lemma Clean_not_rooted path :
  rooted path = false -> rooted (Clean path) = false.
Proof.
  intros H. unfold Clean. destruct (path =? ""); [reflexivity|].
  rewrite H.
  assert (Forall relative_elem
            (rev (fold_left (clean_elem false) (split path) []))) as Hout.
  { apply List.Forall_rev, fold_clean_relative; [|constructor].
    eapply List.Forall_impl; [|apply split_no_sep].
    intros e. apply has_sep_false_rooted. }
  destruct (rev _) as [|e out]; [reflexivity|].
  now apply rooted_join.
Qed.

(** The parent of a path that is not rooted is not rooted either. *)
Lemma Dir_not_rooted path : rooted path = false -> rooted (Dir path) = false.
Proof.
  intros H. apply Clean_not_rooted. now rewrite rooted_upto_last_sep.
Qed.

End filepath_facts.

(** ** Registration *)

Section Registration.
Context {Native : Type} `{!NativeSource Native} {Callback : Type}.
Implicit Types (w : Watcher Native Callback) (fs : FileSystem).
Implicit Types (m : gmap string (list Callback)) (cb : Callback).

Lemma addWatch_missing fs w path cb :
  RealPath fs path = "" ->
  addWatch fs w path cb = (w, Some (DoesNotExist path)).
Proof. intros E. unfold addWatch. now rewrite E. Qed.

Lemma addWatch_resolved fs w path cb :
  RealPath fs path <> "" ->
  addWatch fs w path cb =
    (mkWatcher (fsnotify_Add (RealPath fs path) (watcher w)).1
               (register (callbacks w) (RealPath fs path) cb), None).
Proof.
  intros E. unfold addWatch, register.
  apply String.eqb_neq in E. rewrite E.
  destruct (fsnotify_Add _ _) as [n e]. simpl.
  now destruct (callbacks w !! RealPath fs path).
Qed.

Lemma addWatch_error fs w path cb :
  (addWatch fs w path cb).2 <> None <-> RealPath fs path = "".
Proof.
  destruct (String.eqb_spec (RealPath fs path) "") as [E|E].
  - rewrite (addWatch_missing _ _ _ _ E). simpl. split; [auto | discriminate].
  - rewrite (addWatch_resolved _ _ _ _ E). simpl. split; [congruence | done].
Qed.

Lemma Add_members fs w path cb recursive :
  Add fs w path cb recursive
  = addWatches fs w (members fs path recursive) cb.
Proof.
  unfold Add, members. destruct (_ && _); [reflexivity|].
  simpl. now destruct (addWatch fs w path cb) as [w' [e|]].
Qed.

Lemma addWatches_app fs w pre rest cb :
  Forall (fun u => RealPath fs u <> "") pre ->
  addWatches fs w (pre ++ rest) cb
  = addWatches fs (addWatches fs w pre cb).1 rest cb.
Proof.
  revert w. induction pre as [|u pre IH]; intros w Hpre; [reflexivity|].
  inversion Hpre as [|? ? Hu Hpre']; subst. simpl.
  rewrite (addWatch_resolved _ _ _ _ Hu). now apply IH.
Qed.

Lemma addWatches_resolved fs w l cb :
  Forall (fun u => RealPath fs u <> "") l ->
  (addWatches fs w l cb).2 = None
  /\ callbacks (addWatches fs w l cb).1
     = fold_left (fun m u => register m (RealPath fs u) cb) l (callbacks w).
Proof.
  revert w. induction l as [|u l IH]; intros w Hl; [done|].
  inversion Hl as [|? ? Hu Hl']; subst. simpl.
  rewrite (addWatch_resolved _ _ _ _ Hu). now apply IH.
Qed.

Lemma addWatches_stops fs w pre v post cb :
  Forall (fun u => RealPath fs u <> "") pre -> RealPath fs v = "" ->
  addWatches fs w (pre ++ v :: post) cb
  = ((addWatches fs w pre cb).1, Some (DoesNotExist v)).
Proof.
  intros Hpre Hv. rewrite addWatches_app by assumption. simpl.
  now rewrite (addWatch_missing _ _ _ _ Hv).
Qed.

(** A list either resolves as a whole or has a first member that does
    not. *)
Lemma first_unresolved fs (l : list string) :
  Forall (fun u => RealPath fs u <> "") l
  \/ exists pre v post, l = (pre ++ v :: post)%list
       /\ Forall (fun u => RealPath fs u <> "") pre /\ RealPath fs v = "".
Proof.
  induction l as [|u l IH]; [left; constructor|].
  destruct (String.eqb_spec (RealPath fs u) "") as [E|E].
  - right. now exists [], u, l.
  - destruct IH as [IH|(pre & v & post & -> & Hpre & Hv)].
    + left. now constructor.
    + right. exists (u :: pre), v, post. repeat split; [|assumption].
      now constructor.
Qed.

Lemma register_lookup m t cb k :
  register m t cb !! k
  = if decide (t = k) then Some (default [] (m !! t) ++ [cb])%list
    else m !! k.
Proof. unfold register. apply lookup_insert. Qed.

(** Registering keeps what is registered: a list only grows. *)
Lemma fold_register_grows fs (l : list string) cb m k l0 :
  m !! k = Some l0 ->
  exists l1,
    fold_left (fun m u => register m (RealPath fs u) cb) l m !! k
    = Some (l0 ++ l1)%list.
Proof.
  revert m l0. induction l as [|u l IH]; intros m l0 Hk; simpl.
  - exists []. now rewrite app_nil_r.
  - destruct (decide (RealPath fs u = k)) as [<-|Hne].
    + destruct (IH (register m (RealPath fs u) cb) (l0 ++ [cb])%list)
        as [l1 E].
      { rewrite register_lookup, decide_True by done. now rewrite Hk. }
      exists ([cb] ++ l1)%list. now rewrite app_assoc.
    + apply IH. rewrite register_lookup, decide_False by done. exact Hk.
Qed.

Lemma fold_register_member fs (l : list string) cb m v :
  v ∈ l ->
  exists lst,
    fold_left (fun m u => register m (RealPath fs u) cb) l m
      !! RealPath fs v = Some lst
    /\ cb ∈ lst.
Proof.
  revert m. induction l as [|u l IH]; intros m Hv; [inversion Hv|].
  simpl. apply elem_of_cons in Hv as [->|Hv]; [|now apply IH].
  destruct (fold_register_grows fs l cb
              (register m (RealPath fs u) cb) (RealPath fs u)
              (default [] (m !! RealPath fs u) ++ [cb])%list) as [l1 E].
  { now rewrite register_lookup, decide_True. }
  eexists. split; [exact E|]. set_solver.
Qed.

Lemma fold_register_dom fs (l : list string) cb m :
  dom (fold_left (fun m u => register m (RealPath fs u) cb) l m)
  = dom m ∪ list_to_set (map (RealPath fs) l).
Proof.
  revert m. induction l as [|u l IH]; intros m; simpl.
  - set_solver.
  - rewrite IH. unfold register. rewrite dom_insert_L. set_solver.
Qed.

Lemma fold_register_has fs (l : list string) cb m k lst :
  (forall k' l', m !! k' = Some l' -> cb ∈ l') ->
  fold_left (fun m u => register m (RealPath fs u) cb) l m !! k = Some lst ->
  cb ∈ lst.
Proof.
  revert m. induction l as [|u l IH]; intros m Hm; simpl; [apply Hm|].
  apply IH. intros k' l'. rewrite register_lookup.
  destruct (decide _); [|apply Hm]. intros [= <-]. set_solver.
Qed.

End Registration.

(** ** Add *)

Section AddFacts.
Context {Native : Type} `{!NativeSource Native} {Callback : Type}.
Implicit Types (w : Watcher Native Callback) (fs : FileSystem).
Implicit Types (cb : Callback).

(** C7: [Add] fails exactly when one of the paths it hands to the
    single-path add does not resolve, and the error is the one built for
    that path; in a recursive add the first member that does not resolve
    ends the call with its error, and the members before it are registered
    and stay so. *)
Theorem Add_fails_on_first_unresolved fs w path cb recursive :
  ((Add fs w path cb recursive).2 <> None
   <-> exists v, v ∈ members fs path recursive /\ RealPath fs v = "")
  /\ (forall e, (Add fs w path cb recursive).2 = Some e ->
        exists v, v ∈ members fs path recursive
                  /\ RealPath fs v = "" /\ e = DoesNotExist v)
  /\ (forall pre v post,
        members fs path recursive = (pre ++ v :: post)%list ->
        Forall (fun u => RealPath fs u <> "") pre -> RealPath fs v = "" ->
        Add fs w path cb recursive
          = ((addWatches fs w pre cb).1, Some (DoesNotExist v))
        /\ forall u, u ∈ pre ->
             exists lst,
               callbacks (Add fs w path cb recursive).1 !! RealPath fs u
                 = Some lst
               /\ cb ∈ lst).
Proof.
  rewrite Add_members. set (l := members fs path recursive).
  assert (forall pre v post, l = (pre ++ v :: post)%list ->
            Forall (fun u => RealPath fs u <> "") pre ->
            RealPath fs v = "" ->
            addWatches fs w l cb
            = ((addWatches fs w pre cb).1, Some (DoesNotExist v)))
    as Hstop.
  { intros pre v post -> Hpre Hv. now apply addWatches_stops. }
  split; [|split].
  - split.
    + intros Herr.
      destruct (first_unresolved fs l)
        as [Hall|(pre & v & post & E & _ & Hv)].
      * now destruct (addWatches_resolved fs w l cb Hall) as [E _].
      * exists v. split; [|exact Hv]. rewrite E. set_solver.
    + intros (v & Hin & Hv).
      destruct (first_unresolved fs l)
        as [Hall|(pre & v' & post & E & Hpre & Hv')].
      * rewrite Forall_forall in Hall. now destruct (Hall v Hin).
      * rewrite (Hstop _ _ _ E Hpre Hv'). discriminate.
  - intros e He.
    destruct (first_unresolved fs l)
      as [Hall|(pre & v & post & E & Hpre & Hv)].
    + destruct (addWatches_resolved fs w l cb Hall) as [E _]. congruence.
    + rewrite (Hstop _ _ _ E Hpre Hv) in He. injection He as <-.
      exists v. repeat split; [|exact Hv]. rewrite E. set_solver.
  - intros pre v post E Hpre Hv. rewrite (Hstop _ _ _ E Hpre Hv).
    split; [reflexivity|]. intros u Hu. simpl.
    destruct (addWatches_resolved fs w pre cb Hpre) as [_ ->].
    now apply fold_register_member.
Qed.

(** C6: a recursive [Add] of a directory whose listing holds [N] files
    and [M] directories, all of them resolving to paths of their own,
    succeeds and registers exactly [1+N+M] keys, one for the root and one
    for each listed path, every one of them holding the callback; on a
    fresh registry these are all its entries. *)
Theorem Add_recursive_complete fs w root cb recursive :
  IsDir fs root = true ->
  recursive = [] \/ hd false recursive = true ->
  Forall (fun u => RealPath fs u <> "") (root :: ScanDir fs root) ->
  NoDup (map (RealPath fs) (root :: ScanDir fs root)) ->
  let N := length (List.filter (fun u => negb (IsDir fs u))
                     (ScanDir fs root)) in
  let M := length (List.filter (IsDir fs) (ScanDir fs root)) in
  let w' := (Add fs w root cb recursive).1 in
  let keys : gset string :=
    list_to_set (map (RealPath fs) (root :: ScanDir fs root)) in
  (Add fs w root cb recursive).2 = None
  /\ size keys = 1 + N + M
  /\ dom (callbacks w') = dom (callbacks w) ∪ keys
  /\ (forall u, u ∈ root :: ScanDir fs root ->
        exists lst, callbacks w' !! RealPath fs u = Some lst /\ cb ∈ lst)
  /\ (callbacks w = ∅ ->
      size (callbacks w') = 1 + N + M
      /\ forall k lst, callbacks w' !! k = Some lst -> cb ∈ lst).
Proof.
  intros Hdir Hrec Hall Hnodup N M w' keys. subst w'.
  rewrite Add_members.
  assert (members fs root recursive = root :: ScanDir fs root) as ->.
  { unfold members. rewrite Hdir. now destruct Hrec as [->| ->];
      [|destruct recursive]. }
  destruct (addWatches_resolved fs w _ cb Hall) as [Hok Hreg].
  assert (size keys = 1 + N + M) as Hsize.
  { subst keys. rewrite size_list_to_set by exact Hnodup.
    rewrite length_map. simpl length.
    pose proof (List.filter_length (IsDir fs) (ScanDir fs root)).
    subst N M. lia. }
  split; [exact Hok|]. rewrite Hreg.
  split; [exact Hsize|]. split; [apply fold_register_dom|]. split.
  - intros u Hu. now apply fold_register_member.
  - intros Hempty. rewrite Hempty. split.
    + rewrite <- size_dom, fold_register_dom, dom_empty_L.
      now rewrite (left_id_L ∅ (∪)).
    + intros k lst Hk. eapply fold_register_has; [|exact Hk].
      intros k' l'. now rewrite lookup_empty.
Qed.

End AddFacts.

(** ** Remove *)

Section RemoveFacts.
Context {Native : Type} `{!NativeSource Native} {Callback : Type}.
Implicit Types (w : Watcher Native Callback) (fs : FileSystem).

Lemma removeWatch_eq w path :
  removeWatch w path
  = (mkWatcher (fsnotify_Remove path (watcher w)).1
               (delete path (callbacks w)),
     (fsnotify_Remove path (watcher w)).2).
Proof. unfold removeWatch. now destruct (fsnotify_Remove _ _). Qed.

(** Removal only deletes: what is absent stays absent. *)
Lemma removeWatches_absent w (l : list string) k :
  callbacks w !! k = None -> callbacks (removeWatches w l).1 !! k = None.
Proof.
  revert w. induction l as [|v l IH]; intros w Hk; [exact Hk|].
  simpl. rewrite removeWatch_eq.
  assert (delete v (callbacks w) !! k = None) as Hd
    by (rewrite lookup_delete_None; now right).
  destruct (fsnotify_Remove v (watcher w)).2; [exact Hd|].
  now apply IH.
Qed.

Lemma removeWatches_subseteq w (l : list string) :
  callbacks (removeWatches w l).1 ⊆ callbacks w.
Proof.
  revert w. induction l as [|v l IH]; intros w; [done|].
  simpl. rewrite removeWatch_eq.
  destruct (fsnotify_Remove v (watcher w)).2; simpl.
  - apply delete_subseteq.
  - etrans; [apply IH|]. apply delete_subseteq.
Qed.

Lemma Remove_subseteq fs w path :
  callbacks (Remove fs w path).1 ⊆ callbacks w.
Proof.
  unfold Remove. destruct (IsDir fs path).
  - apply removeWatches_subseteq.
  - rewrite removeWatch_eq. apply delete_subseteq.
Qed.

Lemma lookup_delete_all (l : list string)
    (m : gmap string (list Callback)) k :
  delete_all l m !! k = if decide (k ∈ l) then None else m !! k.
Proof.
  revert m. induction l as [|v l IH]; intros m; [reflexivity|].
  unfold delete_all in *. simpl. rewrite IH.
  destruct (decide (k = v)) as [->|Hne];
    [rewrite lookup_delete_eq | rewrite lookup_delete_ne by congruence];
    repeat case_decide; try done; set_solver.
Qed.

Lemma removeWatches_unsubscribed w (l : list string) n' :
  unsubscribed (watcher w) l = Some n' ->
  removeWatches w l = (mkWatcher n' (delete_all l (callbacks w)), None).
Proof.
  revert w. induction l as [|v l IH]; intros w.
  - simpl. intros [= <-]. now destruct w.
  - simpl. rewrite removeWatch_eq.
    destruct (fsnotify_Remove v (watcher w)) as [n1 [e|]]; [done|].
    simpl. intros Hrest. now rewrite (IH (mkWatcher n1 _) Hrest).
Qed.

Lemma removeWatches_first_failure w (pre : list string) v post n1 e :
  unsubscribed (watcher w) pre = Some n1 ->
  (fsnotify_Remove v n1).2 = Some e ->
  removeWatches w (pre ++ v :: post)
  = (mkWatcher (fsnotify_Remove v n1).1
               (delete_all (pre ++ [v]) (callbacks w)),
     Some e).
Proof.
  revert w. induction pre as [|u pre IH]; intros w.
  - simpl. intros [= <-] Hv. rewrite removeWatch_eq, Hv. reflexivity.
  - simpl. rewrite removeWatch_eq.
    destruct (fsnotify_Remove u (watcher w)) as [n2 [e2|]]; [done|].
    simpl. intros Hpre Hv. now rewrite (IH (mkWatcher n2 _) Hpre Hv).
Qed.

Lemma Remove_removal_members fs w path :
  Remove fs w path = removeWatches w (removal_members fs path).
Proof.
  unfold Remove, removal_members. destruct (IsDir fs path); [reflexivity|].
  simpl. now destruct (removeWatch w path) as [w' [e|]].
Qed.

(** C2, amended: [Remove] deletes the entry of [path], whether there is
    one or not, and unsubscribes [path] from the native source; what it
    returns is the answer of the native source.  For a path that is not a
    directory it is exactly the result of unsubscribing [path], and a
    failed unsubscription of [path] is returned for a directory as well;
    on a path without an entry the registry is left as it is.  For a
    directory the path and the paths of its listing are unsubscribed in
    order: the first unsubscription that fails ends the call with its
    error, the entries of the members up to that one are deleted and the
    others are kept; when none fails the call returns no error and the
    entries of all of them are deleted. *)
Theorem Remove_returns_native_result fs w path :
  let r := fsnotify_Remove path (watcher w) in
  callbacks (Remove fs w path).1 !! path = None
  /\ (IsDir fs path = false ->
      Remove fs w path = (mkWatcher r.1 (delete path (callbacks w)), r.2))
  /\ (r.2 <> None ->
      Remove fs w path = (mkWatcher r.1 (delete path (callbacks w)), r.2))
  /\ (IsDir fs path = false -> callbacks w !! path = None ->
      callbacks (Remove fs w path).1 = callbacks w)
  /\ (forall pre v post n1 e,
        removal_members fs path = (pre ++ v :: post)%list ->
        unsubscribed (watcher w) pre = Some n1 ->
        (fsnotify_Remove v n1).2 = Some e ->
        Remove fs w path
        = (mkWatcher (fsnotify_Remove v n1).1
                     (delete_all (pre ++ [v]) (callbacks w)),
           Some e)
        /\ forall k,
             callbacks (Remove fs w path).1 !! k
             = if decide (k ∈ (pre ++ [v])%list) then None
               else callbacks w !! k)
  /\ (forall n',
        unsubscribed (watcher w) (removal_members fs path) = Some n' ->
        Remove fs w path
        = (mkWatcher n' (delete_all (removal_members fs path) (callbacks w)),
           None)
        /\ forall k,
             callbacks (Remove fs w path).1 !! k
             = if decide (k ∈ removal_members fs path) then None
               else callbacks w !! k)
  /\ (IsDir fs path = true ->
      removal_members fs path = path :: ScanDir fs path).
Proof.
  intros r. subst r.
  split.
  { unfold Remove. destruct (IsDir fs path).
    - simpl. rewrite removeWatch_eq.
      destruct (fsnotify_Remove path (watcher w)).2; simpl.
      + apply lookup_delete_eq.
      + apply removeWatches_absent. apply lookup_delete_eq.
    - rewrite removeWatch_eq. apply lookup_delete_eq. }
  split.
  { unfold Remove. intros ->. apply removeWatch_eq. }
  split.
  { unfold Remove. intros Herr.
    destruct (IsDir fs path); [|apply removeWatch_eq].
    simpl. rewrite removeWatch_eq.
    destruct (fsnotify_Remove path (watcher w)).2 eqn:E; [|done].
    reflexivity. }
  split.
  { unfold Remove. intros -> Hk. rewrite removeWatch_eq. simpl.
    now apply delete_id. }
  split.
  { intros pre v post n1 e Hmem Hpre Hv.
    rewrite Remove_removal_members, Hmem.
    rewrite (removeWatches_first_failure w pre v post n1 e Hpre Hv).
    split; [reflexivity|]. intros k. simpl. apply lookup_delete_all. }
  split.
  { intros n' Hall. rewrite Remove_removal_members.
    rewrite (removeWatches_unsubscribed w _ n' Hall).
    split; [reflexivity|]. intros k. simpl. apply lookup_delete_all. }
  intros Hdir. unfold removal_members. now rewrite Hdir.
Qed.

End RemoveFacts.

(** ** Lookup *)

Section LookupFacts.
Context {Native : Type} {Callback : Type}.
Implicit Types (w : Watcher Native Callback).

Lemma getCallbacks_returns w path fuel :
  filepath.rooted path = true -> String.length path < fuel ->
  is_Some (getCallbacks fuel w path).
Proof.
  revert path. induction fuel as [|fuel IH]; intros path Hr Hlen; [lia|].
  simpl. destruct (String.eqb_spec path "/") as [->|Hne]; [done|].
  destruct (callbacks w !! path); [done|].
  apply IH.
  - now apply filepath_facts.Dir_rooted.
  - pose proof (filepath_facts.Dir_shorter path Hr Hne). lia.
Qed.

Lemma getCallbacks_never_root w path fuel :
  filepath.rooted path = false -> getCallbacks fuel w path <> Some None.
Proof.
  revert path. induction fuel as [|fuel IH]; intros path Hr; [done|].
  simpl. destruct (String.eqb_spec path "/") as [->|Hne]; [done|].
  destruct (callbacks w !! path); [done|].
  apply IH. now apply filepath_facts.Dir_not_rooted.
Qed.

Lemma getCallbacks_loops w path fuel :
  filepath.rooted path = false ->
  (forall k, is_Some (callbacks w !! k) -> filepath.rooted k = true) ->
  getCallbacks fuel w path = None.
Proof.
  intros Hr Hkeys. revert path Hr.
  induction fuel as [|fuel IH]; intros path Hr; [done|].
  simpl. destruct (String.eqb_spec path "/") as [->|Hne]; [done|].
  destruct (callbacks w !! path) eqn:E.
  - rewrite Hkeys in Hr by (now rewrite E). discriminate.
  - apply IH. now apply filepath_facts.Dir_not_rooted.
Qed.

(** The lookup depends on the registry only. *)
Lemma getCallbacks_ext w w' path fuel :
  callbacks w = callbacks w' ->
  getCallbacks fuel w path = getCallbacks fuel w' path.
Proof.
  intros E. revert path. induction fuel as [|fuel IH]; intros path; [done|].
  simpl. rewrite E, IH. reflexivity.
Qed.

Lemma getCallbacks_spec w path fuel r :
  getCallbacks fuel w path = Some r ->
  exists k,
    (forall j, j < k ->
       ancestor j path <> "/" /\ callbacks w !! ancestor j path = None)
    /\ match r with
       | Some q => q = ancestor k path /\ q <> "/"
                   /\ is_Some (callbacks w !! q)
       | None => ancestor k path = "/"
       end.
Proof.
  revert path. induction fuel as [|fuel IH]; intros path; [done|].
  simpl. destruct (String.eqb_spec path "/") as [->|Hne].
  - intros [= <-]. exists 0. split; [lia | reflexivity].
  - destruct (callbacks w !! path) eqn:E.
    + intros [= <-]. exists 0. split; [lia|].
      repeat split; [exact Hne | now rewrite E].
    + intros Hrec. destruct (IH _ Hrec) as (k & Hbelow & Hk).
      exists (S k). split; [|exact Hk].
      intros [|j] Hj; [now split|]. apply Hbelow. lia.
Qed.

End LookupFacts.

(** ** The claims on the lookup *)

Section LookupClaims.
Context {Native : Type} {Callback : Type}.
Implicit Types (w : Watcher Native Callback).

(** C5, amended: for an absolute path the lookup returns the list of the
    nearest path that has an entry among the path itself and its parents
    below the root: the path's own list when it has one, else the first
    found when the last element is stripped again and again.  When the
    root is reached nothing is returned; the root's own entry is never
    looked at. *)
Theorem getCallbacks_nearest_below_root w path fuel :
  filepath.rooted path = true -> String.length path < fuel ->
  exists k r,
    getCallbacks fuel w path = Some r
    /\ (forall j, j < k ->
          ancestor j path <> "/" /\ callbacks w !! ancestor j path = None)
    /\ match r with
       | Some q =>
           q = ancestor k path /\ q <> "/"
           /\ exists lst, callbacks w !! q = Some lst
                          /\ FrontAll w r = Some lst
       | None => ancestor k path = "/" /\ FrontAll w r = None
       end.
Proof.
  intros Hr Hlen.
  destruct (getCallbacks_returns w path fuel Hr Hlen) as [r E].
  destruct (getCallbacks_spec w path fuel r E) as (k & Hbelow & Hk).
  exists k, r. split; [exact E|]. split; [exact Hbelow|].
  destruct r as [q|]; [|now split].
  destruct Hk as (Hq & Hne & [lst Hlst]). repeat split; [assumption..|].
  exists lst. split; [exact Hlst|]. simpl. now rewrite Hlst.
Qed.

(** C10: on a path rooted at the separator every step to the parent
    gives a rooted, strictly shorter path until the root is reached, so the
    lookup returns; on a path that is not rooted the parents are never
    rooted, the walk never arrives at the root, and with a registry keyed
    by rooted paths the loop has no turn at which it returns. *)
Theorem getCallbacks_terminates_on_rooted_only w path :
  (filepath.rooted path = true ->
     (path <> "/" ->
        filepath.rooted (filepath.Dir path) = true
        /\ String.length (filepath.Dir path) < String.length path)
     /\ forall fuel, String.length path < fuel ->
          is_Some (getCallbacks fuel w path))
  /\ (filepath.rooted path = false ->
        filepath.rooted (filepath.Dir path) = false
        /\ filepath.Dir "." = "."
        /\ (forall fuel, getCallbacks fuel w path <> Some None)
        /\ ((forall k, is_Some (callbacks w !! k) ->
               filepath.rooted k = true) ->
            forall fuel, getCallbacks fuel w path = None)).
Proof.
  split.
  - intros Hr. split.
    + intros Hne. split.
      * now apply filepath_facts.Dir_rooted.
      * now apply filepath_facts.Dir_shorter.
    + intros fuel Hlen. now apply getCallbacks_returns.
  - intros Hr. split; [|split; [|split]].
    + now apply filepath_facts.Dir_not_rooted.
    + reflexivity.
    + intros fuel. now apply getCallbacks_never_root.
    + intros Hkeys fuel. now apply getCallbacks_loops.
Qed.

End LookupClaims.

(** ** The event loop *)

Section LoopFacts.
Context {Native : Type} `{!NativeSource Native} {Callback : Type}.
Implicit Types (w : Watcher Native Callback) (fs : FileSystem).
Implicit Types (cb : Callback) (event : Event).

Lemma reconcile_fake_delete fs w event :
  IsRemove event = true -> Exists fs (Path event) = true ->
  reconcile fs w event
  = (mkWatcher (fsnotify_Add (Path event) (watcher w)).1 (callbacks w),
     mkEvent (Path event) RENAME).
Proof.
  intros Hrm Hex. unfold reconcile. rewrite Hrm, Hex.
  now destruct (fsnotify_Add _ _).
Qed.

Lemma reconcile_real_delete fs w event :
  IsRemove event = true -> Exists fs (Path event) = false ->
  reconcile fs w event = ((Remove fs w (Path event)).1, event).
Proof. intros Hrm Hex. unfold reconcile. now rewrite Hrm, Hex. Qed.

Lemma reconcile_path fs w event :
  Path (reconcile fs w event).2 = Path event.
Proof.
  unfold reconcile. destruct (IsRemove event); [|reflexivity].
  destruct (Exists fs (Path event)); [|reflexivity].
  now destruct (fsnotify_Add _ _).
Qed.

(** A path that is gone is no directory: the real deletion deletes the
    entry of the path and no other. *)
Lemma reconcile_gone_single fs w event :
  IsRemove event = true -> Exists fs (Path event) = false ->
  IsDir fs (Path event) = false ->
  callbacks (reconcile fs w event).1 = delete (Path event) (callbacks w).
Proof.
  intros Hrm Hex Hdir. rewrite reconcile_real_delete by assumption.
  unfold Remove. rewrite Hdir, removeWatch_eq. reflexivity.
Qed.

(** The expansion reads the callbacks of the list it is given, nil or not. *)
Lemma expand_nil fs w event :
  IsCreate event = true -> IsDir fs (Path event) = true ->
  expand fs w event None = None.
Proof. intros Hc Hd. unfold expand. now rewrite Hc, Hd. Qed.

Lemma expand_not_create fs w event l :
  IsCreate event = false -> expand fs w event l = Some w.
Proof. intros H. unfold expand. now rewrite H. Qed.

(** C4: an event with the REMOVE bit whose path still exists has the
    native subscription of its path issued again and its [Op] replaced by
    RENAME alone; the registry is left as it was through the whole turn of
    the loop, which ends in the dispatch or the drop of the rewritten
    event. *)
Theorem fake_delete_reconciled fuel fs w event :
  IsRemove event = true -> Exists fs (Path event) = true ->
  let w1 := mkWatcher (fsnotify_Add (Path event) (watcher w)).1
                      (callbacks w) in
  let event1 := mkEvent (Path event) RENAME in
  reconcile fs w event = (w1, event1)
  /\ (forall out, eventStep fuel fs w event = Some out ->
        out = Dropped w1 event1 \/ exists cbs, out = Dispatched w1 event1 cbs)
  /\ (filepath.rooted (Path event) = true ->
      String.length (Path event) < fuel ->
      is_Some (eventStep fuel fs w event)).
Proof.
  intros Hrm Hex w1 event1.
  pose proof (reconcile_fake_delete fs w event Hrm Hex) as Hrec.
  fold w1 event1 in Hrec. split; [exact Hrec|].
  assert (eventStep fuel fs w event
          = match getCallbacks fuel w1 (Path event) with
            | None => None
            | Some l =>
                match FrontAll w1 l with
                | None => Some (Dropped w1 event1)
                | Some cbs => Some (Dispatched w1 event1 cbs)
                end
            end) as Hstep.
  { unfold eventStep. rewrite Hrec. simpl Path.
    destruct (getCallbacks fuel w1 (Path event)) as [l|]; [|reflexivity].
    now rewrite expand_not_create. }
  rewrite Hstep. split.
  - intros out. destruct (getCallbacks fuel w1 (Path event)) as [l|]; [|done].
    destruct (FrontAll w1 l) as [cbs|]; intros [= <-]; [right|left]; eauto.
  - intros Hr Hlen.
    destruct (getCallbacks_returns w1 (Path event) fuel Hr Hlen) as [l ->].
    now destruct (FrontAll w1 l).
Qed.

End LoopFacts.

(** ** The registry is keyed by canonical paths *)

Section Canonical.
Context {Native : Type} `{!NativeSource Native} {Callback : Type}.
Variable Canon : string -> Prop.
Implicit Types (w : Watcher Native Callback) (fs : FileSystem).
Implicit Types (cb : Callback) (event : Event).

Lemma addWatch_canonical fs w path cb :
  canonical_fs Canon fs -> keys_canonical Canon w ->
  keys_canonical Canon (addWatch fs w path cb).1.
Proof.
  intros Hfs Hw.
  destruct (String.eqb_spec (RealPath fs path) "") as [E|E].
  - now rewrite addWatch_missing.
  - rewrite addWatch_resolved by exact E. intros k. simpl.
    rewrite register_lookup. destruct (decide _) as [<-|_].
    + intros _. now apply Hfs.
    + apply Hw.
Qed.

Lemma addWatches_canonical fs w (l : list string) cb :
  canonical_fs Canon fs -> keys_canonical Canon w ->
  keys_canonical Canon (addWatches fs w l cb).1.
Proof.
  intros Hfs. revert w. induction l as [|v l IH]; intros w Hw; [exact Hw|].
  simpl. pose proof (addWatch_canonical fs w v cb Hfs Hw) as Hv.
  destruct (addWatch fs w v cb) as [w' [e|]]; [exact Hv|].
  now apply IH.
Qed.

Lemma Add_canonical fs w path cb recursive :
  canonical_fs Canon fs -> keys_canonical Canon w ->
  keys_canonical Canon (Add fs w path cb recursive).1.
Proof. rewrite Add_members. apply addWatches_canonical. Qed.

Lemma subseteq_canonical w w' :
  callbacks w' ⊆ callbacks w -> keys_canonical Canon w ->
  keys_canonical Canon w'.
Proof.
  intros Hsub Hw k [lst Hk]. apply Hw. exists lst.
  eapply lookup_weaken; eassumption.
Qed.

Lemma Remove_canonical fs w path :
  keys_canonical Canon w -> keys_canonical Canon (Remove fs w path).1.
Proof. apply subseteq_canonical, Remove_subseteq. Qed.

Lemma reconcile_canonical fs w event :
  keys_canonical Canon w -> keys_canonical Canon (reconcile fs w event).1.
Proof.
  intros Hw. unfold reconcile. destruct (IsRemove event); [|exact Hw].
  destruct (Exists fs (Path event)).
  - now destruct (fsnotify_Add _ _).
  - now apply Remove_canonical.
Qed.

Lemma expand_canonical fs w event l w' :
  canonical_fs Canon fs -> keys_canonical Canon w ->
  expand fs w event l = Some w' -> keys_canonical Canon w'.
Proof.
  intros Hfs Hw. unfold expand. destruct (_ && _); [|now intros [= <-]].
  destruct (FrontAll w l) as [cbs|]; [|done]. intros [= <-].
  clear l. revert w Hw. induction cbs as [|cb cbs IH]; intros w Hw;
    [exact Hw|].
  simpl. apply IH. now apply Add_canonical.
Qed.

Lemma eventStep_canonical fuel fs w event out :
  canonical_fs Canon fs -> keys_canonical Canon w ->
  eventStep fuel fs w event = Some out ->
  keys_canonical Canon (outcome_watcher out).
Proof.
  intros Hfs Hw. unfold eventStep.
  pose proof (reconcile_canonical fs w event Hw) as H1.
  destruct (reconcile fs w event) as [w1 event1]. simpl in H1.
  destruct (getCallbacks fuel w1 (Path event1)) as [l|]; [|done].
  destruct (expand fs w1 event1 l) as [w2|] eqn:E.
  - pose proof (expand_canonical _ _ _ _ _ Hfs H1 E) as H2.
    destruct (FrontAll w2 l); now intros [= <-].
  - now intros [= <-].
Qed.

(** C9: with a filesystem that resolves to canonical paths, a registry
    keyed by canonical paths stays so under [Add], under [Remove] and
    under a turn of the event loop; and two spellings resolving to the
    same path are registered under that one key, which then holds both
    callbacks: one new entry, not two. *)
Theorem registry_keys_canonical fs w :
  canonical_fs Canon fs -> keys_canonical Canon w ->
  (forall path cb recursive,
     keys_canonical Canon (Add fs w path cb recursive).1)
  /\ (forall path, keys_canonical Canon (Remove fs w path).1)
  /\ (forall fuel event out,
        eventStep fuel fs w event = Some out ->
        keys_canonical Canon (outcome_watcher out))
  /\ (forall p1 p2 cb1 cb2,
        RealPath fs p1 <> "" -> RealPath fs p2 = RealPath fs p1 ->
        callbacks w !! RealPath fs p1 = None ->
        let w' := (addWatch fs (addWatch fs w p1 cb1).1 p2 cb2).1 in
        callbacks w' = <[RealPath fs p1 := [cb1; cb2]]> (callbacks w)
        /\ size (callbacks w') = S (size (callbacks w))).
Proof.
  intros Hfs Hw. split; [|split; [|split]].
  - intros. now apply Add_canonical.
  - intros. now apply Remove_canonical.
  - intros fuel event out. now apply eventStep_canonical.
  - intros p1 p2 cb1 cb2 Hne Heq Hnone w'.
    assert (callbacks w' = <[RealPath fs p1 := [cb1; cb2]]> (callbacks w))
      as Hcb.
    { subst w'. rewrite (addWatch_resolved fs w p1) by exact Hne.
      rewrite addWatch_resolved by (simpl; congruence).
      simpl. rewrite Heq. unfold register.
      rewrite lookup_insert_eq, Hnone. simpl.
      apply insert_insert_eq. }
    split; [exact Hcb|]. rewrite Hcb.
    now rewrite map_size_insert_None.
Qed.

End Canonical.

(** ** The code on concrete runs *)

Section Runs.
Import scenario.

Lemma testfs_canonical (entries : list testfs.entry) :
  Forall (fun e => filepath.rooted e.1 = true) entries ->
  canonical_fs absolute (testfs.make entries).
Proof.
  intros Hall p.
  change (RealPath (testfs.make entries) p)
    with (match testfs.find entries p with Some e => e.1 | None => "" end).
  destruct (testfs.find entries p) as [e|] eqn:E; [|done].
  intros _. unfold testfs.find in E. apply List.find_some in E as [Hin _].
  rewrite List.Forall_forall in Hall. now apply Hall.
Qed.

Lemma watching_keys : keys_canonical absolute watching.
Proof.
  apply Add_canonical.
  - apply testfs_canonical. now repeat constructor.
  - intros k [lst Hk]. simpl in Hk. now rewrite lookup_empty in Hk.
Qed.

(** C1: after the watched directory [/tmp/w/sub] was deleted with the
    file in it, the turn of the loop for the REMOVE event of the directory
    deletes the entry of the directory only; the entry of [/tmp/w/sub/b]
    is still in the registry. *)
Theorem real_delete_keeps_descendants :
  IsRemove (mkEvent "/tmp/w/sub" REMOVE) = true
  /\ Exists pruned "/tmp/w/sub" = false
  /\ callbacks watching !! "/tmp/w/sub/b" = Some [7]
  /\ exists w',
      eventStep 16 pruned watching (mkEvent "/tmp/w/sub" REMOVE)
      = Some (Dispatched w' (mkEvent "/tmp/w/sub" REMOVE) [7])
      /\ callbacks w' !! "/tmp/w/sub" = None
      /\ callbacks w' !! "/tmp/w/sub/b" = Some [7].
Proof.
  repeat split; try reflexivity.
  eexists. repeat split; vm_compute; reflexivity.
Qed.

(** C2, as stated, fails: [/tmp/w/a.txt] has no entry, and [Remove]
    returns the error of the native source, which has no subscription to
    take away. *)
Lemma Remove_unwatched_path_fails :
  callbacks fresh !! "/tmp/w/a.txt" = None
  /\ (Remove tree fresh "/tmp/w/a.txt").2
     = Some (NativeError "can't remove non-existent watch").
Proof. split; reflexivity. Qed.

(** C3: the native source has no room and rejects the subscription of
    [/tmp/w/a.txt]; [Add] registers the callback and returns no error. *)
Theorem Add_drops_native_error :
  (fsnotify_Add (RealPath tree "/tmp/w/a.txt") (watcher full)).2
  = Some (NativeError "no space left on device")
  /\ (addWatch tree full "/tmp/w/a.txt" 7).2 = None
  /\ (Add tree full "/tmp/w/a.txt" 7 []).2 = None
  /\ callbacks (Add tree full "/tmp/w/a.txt" 7 []).1 !! "/tmp/w/a.txt"
     = Some [7]
  /\ inotify.watches (watcher (Add tree full "/tmp/w/a.txt" 7 []).1) = [].
Proof. repeat split; vm_compute; reflexivity. Qed.

(** C5, as stated, fails at the root: [/] has an entry of its own and the
    lookup of [/] returns nothing, as does the lookup of a path directly
    under it. *)
Lemma root_entry_not_returned :
  callbacks watching_root !! "/" = Some [7]
  /\ (forall fuel, getCallbacks (S fuel) watching_root "/" = Some None)
  /\ getCallbacks 16 watching_root "/data" = Some None.
Proof. repeat split; vm_compute; reflexivity. Qed.

(** C8: with the root watched, the CREATE event of the new directory
    [/data] finds no callbacks; the loop reads the callbacks of the nil list
    and panics, and the event queued behind it is never handled.  The same
    event for a path that is not a directory is dropped. *)
Theorem create_directory_without_callbacks_panics :
  getCallbacks 16 watching_root "/data" = Some None
  /\ IsCreate (mkEvent "/data" CREATE) && IsDir rootfs "/data" = true
  /\ eventStep 16 rootfs watching_root (mkEvent "/data" CREATE)
     = Some (Panicked watching_root (mkEvent "/data" CREATE))
  /\ eventLoop 16 watching_root
       [(rootfs, mkEvent "/data" CREATE); (rootfs, mkEvent "/" WRITE)] []
     = Some (Crashed watching_root [] (mkEvent "/data" CREATE))
  /\ eventLoop 16 watching_root
       [(rootfs, mkEvent "/file" CREATE); (rootfs, mkEvent "/" WRITE)] []
     = Some (Drained watching_root []).
Proof. repeat split; vm_compute; reflexivity. Qed.

End Runs.

(** ** The theorems at concrete inputs *)

Section Witnesses.
Import scenario.

Lemma tree_resolves :
  Forall (fun u => RealPath tree u <> "") ("/tmp/w" :: ScanDir tree "/tmp/w").
Proof. vm_compute. repeat constructor; discriminate. Qed.

Lemma tree_distinct :
  NoDup (map (RealPath tree) ("/tmp/w" :: ScanDir tree "/tmp/w")).
Proof. apply (bool_decide_unpack _). vm_compute. exact I. Qed.

Lemma Remove_returns_native_result_witness :
  IsDir tree "/tmp/w/a.txt" = false
  /\ Remove tree watching "/tmp/w/a.txt"
     = (mkWatcher
          (fsnotify_Remove "/tmp/w/a.txt" (watcher watching)).1
          (delete "/tmp/w/a.txt" (callbacks watching)),
        (fsnotify_Remove "/tmp/w/a.txt" (watcher watching)).2)
  /\ removal_members tree "/tmp/w"
     = (["/tmp/w"] ++ "/tmp/w/a.txt" :: ["/tmp/w/sub"; "/tmp/w/sub/b"])%list
  /\ unsubscribed (watcher more_scenarios.half_subscribed) ["/tmp/w"]
     = Some (inotify.mkState [] 8)
  /\ Remove tree more_scenarios.half_subscribed "/tmp/w"
     = (mkWatcher
          (fsnotify_Remove "/tmp/w/a.txt" (inotify.mkState [] 8)).1
          (delete_all (["/tmp/w"] ++ ["/tmp/w/a.txt"])
             (callbacks more_scenarios.half_subscribed)),
        Some (NativeError "can't remove non-existent watch")).
Proof.
  split; [reflexivity|]. split.
  - apply (proj1 (proj2
             (Remove_returns_native_result tree watching "/tmp/w/a.txt"))).
    reflexivity.
  - split; [reflexivity|]. split; [reflexivity|].
    apply (proj1 (proj2 (proj2 (proj2 (proj2
             (Remove_returns_native_result tree
                more_scenarios.half_subscribed "/tmp/w")))))
             ["/tmp/w"] "/tmp/w/a.txt" ["/tmp/w/sub"; "/tmp/w/sub/b"]
             (inotify.mkState [] 8)
             (NativeError "can't remove non-existent watch"));
      reflexivity.
Defined.

Lemma fake_delete_reconciled_witness :
  IsRemove (mkEvent "/tmp/w/a.txt" (Z.lor REMOVE WRITE)) = true
  /\ Exists tree "/tmp/w/a.txt" = true
  /\ reconcile tree watching (mkEvent "/tmp/w/a.txt" (Z.lor REMOVE WRITE))
     = (mkWatcher (fsnotify_Add "/tmp/w/a.txt" (watcher watching)).1
                  (callbacks watching),
        mkEvent "/tmp/w/a.txt" RENAME).
Proof.
  split; [reflexivity|]. split; [reflexivity|].
  apply (fake_delete_reconciled 16 tree watching
           (mkEvent "/tmp/w/a.txt" (Z.lor REMOVE WRITE)));
    reflexivity.
Defined.

Lemma getCallbacks_nearest_below_root_witness :
  filepath.rooted "/tmp/w/sub/new/x" = true
  /\ String.length "/tmp/w/sub/new/x" < 32
  /\ exists k r,
       getCallbacks 32 watching "/tmp/w/sub/new/x" = Some r
       /\ (forall j, j < k ->
             ancestor j "/tmp/w/sub/new/x" <> "/"
             /\ callbacks watching !! ancestor j "/tmp/w/sub/new/x" = None)
       /\ match r with
          | Some q =>
              q = ancestor k "/tmp/w/sub/new/x" /\ q <> "/"
              /\ exists lst, callbacks watching !! q = Some lst
                             /\ FrontAll watching r = Some lst
          | None => ancestor k "/tmp/w/sub/new/x" = "/"
                    /\ FrontAll watching r = None
          end.
Proof.
  split; [reflexivity|]. split; [simpl; lia|].
  apply (getCallbacks_nearest_below_root watching "/tmp/w/sub/new/x" 32);
    [reflexivity | simpl; lia].
Defined.

Lemma Add_recursive_complete_witness :
  IsDir tree "/tmp/w" = true
  /\ callbacks fresh = ∅
  /\ (Add tree fresh "/tmp/w" 7 []).2 = None
  /\ size (callbacks (Add tree fresh "/tmp/w" 7 []).1) = 1 + 2 + 1.
Proof.
  split; [reflexivity|]. split; [reflexivity|].
  pose proof (Add_recursive_complete tree fresh "/tmp/w" 7 []
                eq_refl (or_introl eq_refl) tree_resolves tree_distinct)
    as H.
  cbv zeta in H. destruct H as (Hok & _ & _ & _ & Hfresh).
  split; [exact Hok | exact (proj1 (Hfresh eq_refl))].
Defined.

Lemma Add_fails_on_first_unresolved_witness :
  members vanishing "/tmp/w" []
  = (["/tmp/w"; "/tmp/w/a.txt"] ++ "/tmp/w/sub" :: ["/tmp/w/sub/b"])%list
  /\ RealPath vanishing "/tmp/w/sub" = ""
  /\ Add vanishing fresh "/tmp/w" 7 []
     = ((addWatches vanishing fresh ["/tmp/w"; "/tmp/w/a.txt"] 7).1,
        Some (DoesNotExist "/tmp/w/sub")).
Proof.
  split; [reflexivity|]. split; [reflexivity|].
  apply (proj2 (proj2
           (Add_fails_on_first_unresolved vanishing fresh "/tmp/w" 7 []))
           ["/tmp/w"; "/tmp/w/a.txt"] "/tmp/w/sub" ["/tmp/w/sub/b"]);
    [reflexivity | | reflexivity].
  repeat constructor; vm_compute; discriminate.
Defined.

Lemma registry_keys_canonical_witness :
  canonical_fs absolute tree
  /\ keys_canonical absolute watching
  /\ RealPath tree "/tmp/w/" = RealPath tree "/tmp/w"
  /\ keys_canonical absolute (Remove tree watching "/tmp/w/sub").1
  /\ size (callbacks
             (addWatch tree (addWatch tree fresh "/tmp/w" 7).1 "/tmp/w/" 9).1)
     = 1.
Proof.
  assert (canonical_fs absolute tree) as Hfs
    by (apply testfs_canonical; now repeat constructor).
  split; [exact Hfs|]. split; [exact watching_keys|].
  split; [reflexivity|].
  split.
  - apply (proj1 (proj2
             (registry_keys_canonical absolute tree watching
                Hfs watching_keys))).
  - assert (keys_canonical absolute fresh) as Hfresh.
    { intros k [lst Hk]. simpl in Hk. now rewrite lookup_empty in Hk. }
    apply (proj2 (proj2 (proj2
             (registry_keys_canonical absolute tree fresh Hfs Hfresh)))
             "/tmp/w" "/tmp/w/" 7 9);
      [discriminate | reflexivity | reflexivity].
Defined.

Lemma getCallbacks_terminates_on_rooted_only_witness :
  filepath.rooted "/tmp/w/sub/new/x" = true
  /\ is_Some (getCallbacks 17 watching "/tmp/w/sub/new/x")
  /\ filepath.rooted "w/sub/new/x" = false
  /\ getCallbacks 1000 watching "w/sub/new/x" = None.
Proof.
  split; [reflexivity|]. split.
  - apply (proj1
             (getCallbacks_terminates_on_rooted_only
                watching "/tmp/w/sub/new/x"));
      [reflexivity | simpl; lia].
  - split; [reflexivity|].
    apply (proj2
             (getCallbacks_terminates_on_rooted_only watching "w/sub/new/x"));
      [reflexivity | exact watching_keys].
Defined.

End Witnesses.

(** ** Registration and removal, composed *)

Section RegistryLaws.
Context {Native : Type} `{!NativeSource Native} {Callback : Type}.
Implicit Types (w : Watcher Native Callback) (fs : FileSystem).
Implicit Types (cb : Callback).

Lemma addWatch_grows fs w path cb k l0 :
  callbacks w !! k = Some l0 ->
  exists l1, callbacks (addWatch fs w path cb).1 !! k = Some (l0 ++ l1)%list.
Proof.
  intros Hk. destruct (String.eqb_spec (RealPath fs path) "") as [E|E].
  - rewrite addWatch_missing by exact E. exists []. now rewrite app_nil_r.
  - rewrite addWatch_resolved by exact E. simpl. rewrite register_lookup.
    destruct (decide _) as [<-|_].
    + exists [cb]. now rewrite Hk.
    + exists []. now rewrite app_nil_r.
Qed.

Lemma addWatches_grows fs w (l : list string) cb k l0 :
  callbacks w !! k = Some l0 ->
  exists l1, callbacks (addWatches fs w l cb).1 !! k = Some (l0 ++ l1)%list.
Proof.
  revert w l0. induction l as [|v l IH]; intros w l0 Hk.
  - exists []. now rewrite app_nil_r.
  - simpl. destruct (addWatch_grows fs w v cb k l0 Hk) as [l1 H1].
    destruct (addWatch fs w v cb) as [w' [e|]]; [now exists l1|].
    destruct (IH w' _ H1) as [l2 H2]. exists (l1 ++ l2)%list.
    now rewrite app_assoc.
Qed.

Lemma addWatches_frame fs w (l : list string) cb k :
  (forall u, u ∈ l -> RealPath fs u <> k) ->
  callbacks (addWatches fs w l cb).1 !! k = callbacks w !! k.
Proof.
  revert w. induction l as [|v l IH]; intros w Hl; [reflexivity|].
  simpl.
  assert (callbacks (addWatch fs w v cb).1 !! k = callbacks w !! k) as Hv.
  { destruct (String.eqb_spec (RealPath fs v) "") as [E|E].
    - now rewrite addWatch_missing.
    - rewrite addWatch_resolved by exact E. simpl.
      rewrite register_lookup, decide_False; [reflexivity|].
      apply Hl. set_solver. }
  destruct (addWatch fs w v cb) as [w' [e|]]; [exact Hv|].
  simpl in Hv. rewrite <- Hv. apply IH. intros u Hu. apply Hl. set_solver.
Qed.

Lemma Add_grows fs w path cb recursive k l0 :
  callbacks w !! k = Some l0 ->
  exists l1,
    callbacks (Add fs w path cb recursive).1 !! k = Some (l0 ++ l1)%list.
Proof. rewrite Add_members. apply addWatches_grows. Qed.

(** X8: [Add] only appends.  Whatever it returns, a list that was in the
    registry is still there, with the callbacks it held in the same order
    and the new ones behind them. *)
Theorem Add_only_appends fs w path cb recursive k l0 :
  callbacks w !! k = Some l0 ->
  exists l1,
    callbacks (Add fs w path cb recursive).1 !! k = Some (l0 ++ l1)%list.
Proof. rewrite Add_members. apply addWatches_grows. Qed.

(** X1: what a successful [Add] registers is found by the lookup: for every
    member that resolves to a path other than the root, the lookup of the
    resolved path returns the entry of that very path, and the callbacks
    read from it hold the one just added. *)
Theorem Add_then_lookup fs w path cb recursive fuel u :
  Forall (fun v => RealPath fs v <> "") (members fs path recursive) ->
  u ∈ members fs path recursive -> RealPath fs u <> "/" ->
  let w' := (Add fs w path cb recursive).1 in
  (Add fs w path cb recursive).2 = None
  /\ getCallbacks (S fuel) w' (RealPath fs u) = Some (Some (RealPath fs u))
  /\ exists lst, FrontAll w' (Some (RealPath fs u)) = Some lst /\ cb ∈ lst.
Proof.
  intros Hall Hu Hroot w'. subst w'. rewrite Add_members.
  destruct (addWatches_resolved fs w _ cb Hall) as [Hok Hreg].
  destruct (fold_register_member fs _ cb (callbacks w) u Hu)
    as (lst & Hlst & Hcb).
  rewrite <- Hreg in Hlst.
  split; [exact Hok|]. split.
  - simpl. apply String.eqb_neq in Hroot. now rewrite Hroot, Hlst.
  - exists lst. simpl. now rewrite Hlst.
Qed.

Lemma Remove_members fs w path :
  Remove fs w path = removeWatches w (removal_members fs path).
Proof.
  unfold Remove, removal_members. destruct (IsDir fs path); [reflexivity|].
  simpl. now destruct (removeWatch w path) as [w' [e|]].
Qed.

Lemma removeWatches_frame w (l : list string) k :
  k ∉ l -> callbacks (removeWatches w l).1 !! k = callbacks w !! k.
Proof.
  revert w. induction l as [|v l IH]; intros w Hk; [reflexivity|].
  simpl. rewrite removeWatch_eq.
  assert (delete v (callbacks w) !! k = callbacks w !! k) as Hd
    by (apply lookup_delete_ne; set_solver).
  destruct (fsnotify_Remove v (watcher w)).2; [exact Hd|].
  rewrite IH by set_solver. exact Hd.
Qed.

Lemma removeWatches_deleted w (l : list string) v :
  (removeWatches w l).2 = None -> v ∈ l ->
  callbacks (removeWatches w l).1 !! v = None.
Proof.
  revert w. induction l as [|u l IH]; intros w Hok Hv; [inversion Hv|].
  simpl in *. rewrite removeWatch_eq in *.
  destruct (fsnotify_Remove u (watcher w)).2; [discriminate Hok|].
  apply elem_of_cons in Hv as [->|Hv]; [|now apply IH].
  apply removeWatches_absent. simpl. apply lookup_delete_eq.
Qed.

Lemma removeWatches_app w (pre rest : list string) :
  (removeWatches w pre).2 = None ->
  removeWatches w (pre ++ rest) = removeWatches (removeWatches w pre).1 rest.
Proof.
  revert w. induction pre as [|u pre IH]; intros w Hok; [reflexivity|].
  simpl in *. rewrite removeWatch_eq in *.
  destruct (fsnotify_Remove u (watcher w)).2; [discriminate Hok|].
  now apply IH.
Qed.

(** X2: [Remove] touches the entries of the path and of its listing only:
    every other key keeps its list, whatever [Remove] returns. *)
Theorem Remove_frame fs w path k :
  k ∉ removal_members fs path ->
  callbacks (Remove fs w path).1 !! k = callbacks w !! k.
Proof. rewrite Remove_members. apply removeWatches_frame. Qed.

(** X3: when [Remove] returns no error, neither the path nor any path of
    its listing has an entry afterwards. *)
Theorem Remove_success_cascades fs w path v :
  (Remove fs w path).2 = None -> v ∈ removal_members fs path ->
  callbacks (Remove fs w path).1 !! v = None.
Proof. rewrite Remove_members. apply removeWatches_deleted. Qed.

(** X4: [Remove] stops at the first member the native source refuses to
    unsubscribe and returns that error; the entry of that member and of
    the members before it are deleted, and a member listed only behind it
    keeps its entry. *)
Theorem Remove_stops_at_first_failure fs w path pre v post e :
  removal_members fs path = (pre ++ v :: post)%list ->
  (removeWatches w pre).2 = None ->
  (fsnotify_Remove v (watcher (removeWatches w pre).1)).2 = Some e ->
  (Remove fs w path).2 = Some e
  /\ (forall u, u ∈ (pre ++ [v])%list ->
        callbacks (Remove fs w path).1 !! u = None)
  /\ (forall u, u ∈ post -> u ∉ pre -> u <> v ->
        callbacks (Remove fs w path).1 !! u = callbacks w !! u).
Proof.
  intros Hmem Hpre Hv. rewrite Remove_members, Hmem.
  rewrite removeWatches_app by exact Hpre. simpl.
  rewrite removeWatch_eq, Hv. simpl.
  split; [reflexivity|]. split.
  - intros u Hu. apply elem_of_app in Hu as [Hu|Hu].
    + rewrite lookup_delete_None. right.
      now apply removeWatches_deleted.
    + apply list_elem_of_singleton in Hu as ->. apply lookup_delete_eq.
  - intros u _ Hnpre Hne. rewrite lookup_delete_ne by congruence.
    now apply removeWatches_frame.
Qed.

Lemma members_removal fs path recursive u :
  u ∈ members fs path recursive -> u ∈ removal_members fs path.
Proof.
  unfold members, removal_members. destruct (IsDir fs path); simpl.
  - destruct (_ || _); set_solver.
  - done.
Qed.

(** X5: with every member spelled as it resolves, and none of the removed
    paths registered before, [Add] followed by a [Remove] of the same path
    that returns no error gives the registry back as it was. *)
Theorem Add_then_Remove_restores fs w path cb recursive :
  (forall u, u ∈ members fs path recursive -> RealPath fs u = u) ->
  (forall u, u ∈ removal_members fs path -> callbacks w !! u = None) ->
  let w1 := (Add fs w path cb recursive).1 in
  (Remove fs w1 path).2 = None ->
  callbacks (Remove fs w1 path).1 = callbacks w.
Proof.
  intros Hsp Hnew w1 Hok. apply map_eq. intros k.
  destruct (decide (k ∈ removal_members fs path)) as [Hk|Hk].
  - rewrite Remove_members in *.
    rewrite removeWatches_deleted by assumption. symmetry. now apply Hnew.
  - rewrite Remove_members, removeWatches_frame by exact Hk.
    subst w1. rewrite Add_members.
    apply addWatches_frame. intros u Hu E. rewrite Hsp in E by exact Hu.
    subst u. apply Hk. eapply members_removal, Hu.
Qed.

(** X6: [Remove] takes the path as it is spelled and does not resolve it:
    after [Add] of a path that is no directory and resolves to another
    spelling, [Remove] of the same path leaves the callback registered
    under the resolved path. *)
Theorem Remove_keeps_other_spelling fs w path cb recursive :
  IsDir fs path = false -> RealPath fs path <> "" ->
  RealPath fs path <> path ->
  let w1 := (Add fs w path cb recursive).1 in
  callbacks (Remove fs w1 path).1 !! RealPath fs path
  = Some (default [] (callbacks w !! RealPath fs path) ++ [cb])%list.
Proof.
  intros Hdir Hres Hne w1.
  rewrite Remove_members, removeWatches_frame
    by (unfold removal_members; rewrite Hdir; set_solver).
  subst w1. unfold Add. rewrite Hdir. simpl.
  rewrite addWatch_resolved by exact Hres. simpl.
  now rewrite register_lookup, decide_True.
Qed.

End RegistryLaws.

(** ** No entry holds an empty list *)

Section NonEmpty.
Context {Native : Type} `{!NativeSource Native} {Callback : Type}.
Implicit Types (w : Watcher Native Callback) (fs : FileSystem).
Implicit Types (cb : Callback) (event : Event).

Lemma addWatch_nonempty fs w path cb :
  lists_nonempty w -> lists_nonempty (addWatch fs w path cb).1.
Proof.
  intros Hw. destruct (String.eqb_spec (RealPath fs path) "") as [E|E].
  - now rewrite addWatch_missing.
  - rewrite addWatch_resolved by exact E. intros k lst. simpl.
    rewrite register_lookup. destruct (decide _); [|apply Hw].
    intros [= <-]. now destruct (default [] _).
Qed.

Lemma addWatches_nonempty fs w (l : list string) cb :
  lists_nonempty w -> lists_nonempty (addWatches fs w l cb).1.
Proof.
  revert w. induction l as [|v l IH]; intros w Hw; [exact Hw|].
  simpl. pose proof (addWatch_nonempty fs w v cb Hw) as Hv.
  destruct (addWatch fs w v cb) as [w' [e|]]; [exact Hv|]. now apply IH.
Qed.

Lemma Add_nonempty fs w path cb recursive :
  lists_nonempty w -> lists_nonempty (Add fs w path cb recursive).1.
Proof. rewrite Add_members. apply addWatches_nonempty. Qed.

Lemma Remove_nonempty fs w path :
  lists_nonempty w -> lists_nonempty (Remove fs w path).1.
Proof.
  intros Hw k lst Hk. apply (Hw k).
  eapply lookup_weaken; [exact Hk | apply Remove_subseteq].
Qed.

Lemma reconcile_nonempty fs w event :
  lists_nonempty w -> lists_nonempty (reconcile fs w event).1.
Proof.
  intros Hw. unfold reconcile. destruct (IsRemove event); [|exact Hw].
  destruct (Exists fs (Path event)).
  - now destruct (fsnotify_Add _ _).
  - now apply Remove_nonempty.
Qed.

Lemma fold_Add_nonempty fs w path (cbs : list Callback) :
  lists_nonempty w ->
  lists_nonempty (fold_left (fun w' cb => (Add fs w' path cb []).1) cbs w).
Proof.
  revert w. induction cbs as [|cb cbs IH]; intros w Hw; [exact Hw|].
  simpl. apply IH. now apply Add_nonempty.
Qed.

Lemma fold_Add_grows fs w path (cbs : list Callback) k l0 :
  callbacks w !! k = Some l0 ->
  exists l1,
    callbacks (fold_left (fun w' cb => (Add fs w' path cb []).1) cbs w) !! k
    = Some (l0 ++ l1)%list.
Proof.
  revert w l0. induction cbs as [|cb cbs IH]; intros w l0 Hk; simpl.
  - exists []. now rewrite app_nil_r.
  - destruct (Add_grows fs w path cb [] k l0 Hk) as [l1 H1].
    destruct (IH _ _ H1) as [l2 H2]. exists (l1 ++ l2)%list.
    now rewrite app_assoc.
Qed.

Lemma expand_some fs w event l w2 :
  expand fs w event l = Some w2 ->
  w2 = w
  \/ exists cbs, FrontAll w l = Some cbs
       /\ w2 = fold_left (fun w' cb => (Add fs w' (Path event) cb []).1) cbs w.
Proof.
  unfold expand. destruct (_ && _); [|intros [= <-]; now left].
  destruct (FrontAll w l) as [cbs|]; [|done]. intros [= <-].
  right. now exists cbs.
Qed.

Lemma expand_nonempty fs w event l w2 :
  lists_nonempty w -> expand fs w event l = Some w2 -> lists_nonempty w2.
Proof.
  intros Hw H. destruct (expand_some _ _ _ _ _ H) as [->|(cbs & _ & ->)];
    [exact Hw|]. now apply fold_Add_nonempty.
Qed.

Lemma expand_grows fs w event l w2 k l0 :
  expand fs w event l = Some w2 -> callbacks w !! k = Some l0 ->
  exists l1, callbacks w2 !! k = Some (l0 ++ l1)%list.
Proof.
  intros H Hk. destruct (expand_some _ _ _ _ _ H) as [->|(cbs & _ & ->)].
  - exists []. now rewrite app_nil_r.
  - now apply fold_Add_grows.
Qed.

(** X7: no operation leaves a key with an empty list.  A registry whose
    lists are not empty stays so under [Add], under [Remove] and under a
    turn of the event loop, and a dispatch unit is never started with no
    callback to run. *)
Theorem registry_lists_nonempty fs w :
  lists_nonempty w ->
  (forall path cb recursive, lists_nonempty (Add fs w path cb recursive).1)
  /\ (forall path, lists_nonempty (Remove fs w path).1)
  /\ (forall fuel event out,
        eventStep fuel fs w event = Some out ->
        lists_nonempty (outcome_watcher out))
  /\ (forall fuel event w' event' cbs,
        eventStep fuel fs w event = Some (Dispatched w' event' cbs) ->
        cbs <> []).
Proof.
  intros Hw. split; [|split; [|split]].
  - intros. now apply Add_nonempty.
  - intros. now apply Remove_nonempty.
  - intros fuel event out. unfold eventStep.
    pose proof (reconcile_nonempty fs w event Hw) as H1.
    destruct (reconcile fs w event) as [w1 event1]. simpl in H1.
    destruct (getCallbacks fuel w1 (Path event1)) as [l|]; [|done].
    destruct (expand fs w1 event1 l) as [w2|] eqn:E.
    + pose proof (expand_nonempty _ _ _ _ _ H1 E).
      destruct (FrontAll w2 l); now intros [= <-].
    + now intros [= <-].
  - intros fuel event w' event' cbs. unfold eventStep.
    pose proof (reconcile_nonempty fs w event Hw) as H1.
    destruct (reconcile fs w event) as [w1 event1]. simpl in H1.
    destruct (getCallbacks fuel w1 (Path event1)) as [l|] eqn:Hl; [|done].
    destruct (expand fs w1 event1 l) as [w2|] eqn:E; [|done].
    destruct l as [q|]; [|done]. simpl.
    intros [= <- <- <-].
    destruct (getCallbacks_spec _ _ _ _ Hl) as (k & _ & _ & _ & [l0 Hq]).
    destruct (expand_grows _ _ _ _ _ _ _ E Hq) as [l1 ->]. simpl.
    specialize (H1 _ _ Hq). now destruct l0.
Qed.

End NonEmpty.

(** ** Turns of the event loop *)

Section Turns.
Context {Native : Type} `{!NativeSource Native} {Callback : Type}.
Implicit Types (w : Watcher Native Callback) (fs : FileSystem).
Implicit Types (cb : Callback) (event : Event).

Lemma getCallbacks_finds w path k fuel :
  (forall j, j < k ->
     ancestor j path <> "/" /\ callbacks w !! ancestor j path = None) ->
  ancestor k path <> "/" -> is_Some (callbacks w !! ancestor k path) ->
  k < fuel ->
  getCallbacks fuel w path = Some (Some (ancestor k path)).
Proof.
  revert path fuel. induction k as [|k IH]; intros path fuel Hbelow Hne Hk Hf;
    (destruct fuel as [|fuel]; [lia|]); simpl in *.
  - apply String.eqb_neq in Hne. rewrite Hne.
    destruct Hk as [lst ->]. reflexivity.
  - destruct (Hbelow 0 ltac:(lia)) as [H0 H0']. simpl in H0, H0'.
    apply String.eqb_neq in H0. rewrite H0, H0'.
    apply IH; [|assumption..|lia].
    intros j Hj. apply (Hbelow (S j)). lia.
Qed.

Lemma plain_event_step fuel fs w event :
  IsRemove event = false ->
  IsCreate event && IsDir fs (Path event) = false ->
  eventStep fuel fs w event
  = match getCallbacks fuel w (Path event) with
    | None => None
    | Some None => Some (Dropped w event)
    | Some (Some q) =>
        Some (Dispatched w event (default [] (callbacks w !! q)))
    end.
Proof.
  intros Hrm Hcr. unfold eventStep, reconcile, expand.
  rewrite Hrm. destruct (getCallbacks fuel w (Path event)) as [[q|]|];
    try rewrite Hcr; reflexivity.
Qed.


(** X10: the event of a path that was never registered is dispatched to
    the callbacks of the nearest registered parent: when the first [k]
    parents below the root have no entry and the next one has, a plain
    event of the path starts a unit with exactly that parent's callbacks. *)
Theorem event_dispatched_to_nearest_parent fuel fs w event k cbs :
  IsRemove event = false ->
  IsCreate event && IsDir fs (Path event) = false ->
  (forall j, j < k ->
     ancestor j (Path event) <> "/"
     /\ callbacks w !! ancestor j (Path event) = None) ->
  ancestor k (Path event) <> "/" ->
  callbacks w !! ancestor k (Path event) = Some cbs ->
  k < fuel ->
  eventStep fuel fs w event = Some (Dispatched w event cbs).
Proof.
  intros Hrm Hcr Hbelow Hne Hk Hf. rewrite plain_event_step by assumption.
  rewrite (getCallbacks_finds w (Path event) k fuel) by (eauto || lia).
  now rewrite Hk.
Qed.

Lemma fold_Add_registers fs w path (cbs : list Callback) u cb :
  Forall (fun v => RealPath fs v <> "") (members fs path []) ->
  u ∈ members fs path [] -> cb ∈ cbs ->
  exists lst,
    callbacks (fold_left (fun w' c => (Add fs w' path c []).1) cbs w)
      !! RealPath fs u = Some lst
    /\ cb ∈ lst.
Proof.
  intros Hall Hu. revert w. induction cbs as [|c cbs IH]; intros w Hcb;
    [inversion Hcb|].
  simpl. apply elem_of_cons in Hcb as [->|Hcb]; [|now apply IH].
  assert (exists l0, callbacks (Add fs w path c []).1 !! RealPath fs u
                     = Some l0 /\ c ∈ l0) as (l0 & H0 & Hc).
  { rewrite Add_members.
    destruct (addWatches_resolved fs w _ c Hall) as [_ ->].
    now apply fold_register_member. }
  destruct (fold_Add_grows fs _ path cbs _ _ H0) as [l1 H1].
  exists (l0 ++ l1)%list. split; [exact H1|]. set_solver.
Qed.

(** X11: a directory made under a watched parent inherits the parent's
    callbacks.  For a CREATE event of a directory whose lookup finds a
    list, the turn of the loop registers every callback of that list on
    the directory and on every path of its listing, and then starts a unit
    that runs at least the callbacks found. *)
Theorem new_directory_inherits fuel fs w event q cbs :
  IsRemove event = false -> IsCreate event = true ->
  IsDir fs (Path event) = true ->
  Forall (fun v => RealPath fs v <> "")
    (Path event :: ScanDir fs (Path event)) ->
  getCallbacks fuel w (Path event) = Some (Some q) ->
  callbacks w !! q = Some cbs ->
  exists w2 more,
    eventStep fuel fs w event = Some (Dispatched w2 event (cbs ++ more)%list)
    /\ forall u cb, u ∈ Path event :: ScanDir fs (Path event) -> cb ∈ cbs ->
         exists lst, callbacks w2 !! RealPath fs u = Some lst /\ cb ∈ lst.
Proof.
  intros Hrm Hcr Hdir Hall Hl Hq.
  assert (members fs (Path event) [] = Path event :: ScanDir fs (Path event))
    as Hmem by (unfold members; now rewrite Hdir).
  set (w2 := fold_left (fun w' cb => (Add fs w' (Path event) cb []).1) cbs w).
  destruct (fold_Add_grows fs w (Path event) cbs q cbs Hq) as [more Hmore].
  change (callbacks w2 !! q = Some (cbs ++ more)%list) in Hmore.
  exists w2, more. split.
  - unfold eventStep, reconcile, expand. rewrite Hrm, Hl, Hcr, Hdir. simpl.
    rewrite Hq. simpl. fold w2. now rewrite Hmore.
  - intros u cb Hu Hcb. apply fold_Add_registers; [| |exact Hcb];
      now rewrite Hmem.
Qed.

Lemma fold_register_same (cbs : list Callback)
    (m : gmap string (list Callback)) t l0 :
  m !! t = Some l0 ->
  fold_left (fun m' cb => register m' t cb) cbs m = <[t := (l0 ++ cbs)%list]> m.
Proof.
  revert m l0. induction cbs as [|cb cbs IH]; intros m l0 Ht; simpl.
  - rewrite app_nil_r. symmetry. now apply insert_id.
  - rewrite (IH _ (l0 ++ [cb])%list).
    + unfold register. rewrite Ht. simpl.
      rewrite insert_insert_eq. now rewrite <- app_assoc.
    + unfold register. rewrite Ht. simpl. apply lookup_insert_eq.
Qed.

(** X12: a CREATE event of a directory that has an entry of its own
    registers the callbacks of that entry once more on it: with an empty
    listing and the path spelled as it resolves, the list of the directory
    is doubled, and the unit started runs every callback twice. *)
Theorem create_on_registered_directory_doubles fuel fs w event cbs :
  IsRemove event = false -> IsCreate event = true ->
  IsDir fs (Path event) = true -> ScanDir fs (Path event) = [] ->
  RealPath fs (Path event) = Path event ->
  Path event <> "" -> Path event <> "/" ->
  callbacks w !! Path event = Some cbs ->
  exists w2,
    eventStep (S fuel) fs w event
    = Some (Dispatched w2 event (cbs ++ cbs)%list)
    /\ callbacks w2 = <[Path event := (cbs ++ cbs)%list]> (callbacks w).
Proof.
  intros Hrm Hcr Hdir Hscan Hreal Hne Hroot Hk.
  set (w2 := fold_left (fun w' cb => (Add fs w' (Path event) cb []).1) cbs w).
  assert (forall (l : list Callback) w0,
            callbacks (fold_left
                         (fun w' cb => (Add fs w' (Path event) cb []).1) l w0)
            = fold_left (fun m' cb => register m' (Path event) cb) l
                        (callbacks w0)) as Hfold.
  { induction l as [|cb l IH]; intros w0; [reflexivity|]. simpl.
    rewrite IH. f_equal. unfold Add. rewrite Hdir, Hscan. simpl.
    rewrite addWatch_resolved by congruence. simpl. now rewrite Hreal. }
  assert (callbacks w2 = <[Path event := (cbs ++ cbs)%list]> (callbacks w))
    as Hw2 by (subst w2; rewrite Hfold; now apply fold_register_same).
  exists w2. split; [|exact Hw2].
  unfold eventStep, reconcile, expand. rewrite Hrm. simpl.
  apply String.eqb_neq in Hroot. rewrite Hroot, Hk, Hcr, Hdir. simpl.
  rewrite Hk. simpl. fold w2. now rewrite Hw2, lookup_insert_eq.
Qed.



End Turns.

(** ** The intake loop *)

Section Intake.

Lemma watchLoop_open (pre : list Received) events log :
  CloseSignal ∉ pre ->
  watchLoop pre events log
  = ((events ++ omap as_event pre)%list, (log ++ omap as_logged pre)%list).
Proof.
  revert events log. induction pre as [|r pre IH]; intros events log Hpre.
  - simpl. now rewrite !app_nil_r.
  - assert (CloseSignal ∉ pre) as Hrest by set_solver.
    destruct r as [|name op|msg]; [set_solver| |]; simpl.
    + rewrite IH by exact Hrest. now rewrite <- app_assoc.
    + rewrite IH by exact Hrest. now rewrite <- app_assoc.
Qed.

(** X14: the intake loop forwards what it receives before the close
    signal, and nothing else: the native events are pushed on the queue in
    the order received, each with its path and bits unchanged; a native
    error is logged, pushes nothing and does not end the loop; what
    arrives behind the close signal is neither pushed nor logged. *)
Theorem watchLoop_forwards_in_order (pre post : list Received) events log :
  CloseSignal ∉ pre ->
  watchLoop (pre ++ CloseSignal :: post) events log
  = ((events ++ omap as_event pre)%list, (log ++ omap as_logged pre)%list)
  /\ watchLoop pre events log
     = ((events ++ omap as_event pre)%list, (log ++ omap as_logged pre)%list).
Proof.
  intros Hpre. split; [|now apply watchLoop_open].
  revert events log. induction pre as [|r pre IH]; intros events log.
  - simpl. now rewrite !app_nil_r.
  - assert (CloseSignal ∉ pre) as Hrest by set_solver.
    destruct r as [|name op|msg]; [set_solver| |]; simpl.
    + rewrite IH by exact Hrest. now rewrite <- app_assoc.
    + rewrite IH by exact Hrest. now rewrite <- app_assoc.
Qed.

End Intake.

(** ** The package-level functions *)

Section PackageFacts.
Context {Native : Type} `{!NativeSource Native} {Callback : Type}.
Implicit Types (fs : FileSystem) (cb : Callback).

(** X15: the package-level functions work on the global watcher or fail
    cleanly.  When the native watcher could not be made, [New] returns its
    error, the global watcher is nil, and [Add] and [Remove] of the package
    return their own error and register nothing.  Otherwise they are the
    methods of a watcher that starts with an empty registry: the first
    [Add] of a path that resolves and is no directory leaves exactly one
    entry, holding the callback. *)
Theorem package_functions_on_global fs path cb recursive :
  (forall err,
     let failed : Native + error := inr err in
     gfsnotify.New (Callback := Callback) failed = (None, Some err)
     /\ gfsnotify.Add (gfsnotify.global failed) fs path cb recursive
        = (None, Some GlobalWatcherFailed)
     /\ gfsnotify.Remove (Callback := Callback)
          (gfsnotify.global failed) fs path
        = (None, Some GlobalWatcherFailed))
  /\ (forall watch : Native,
        let w0 : Watcher Native Callback := mkWatcher watch ∅ in
        gfsnotify.Add (gfsnotify.global (inl watch)) fs path cb recursive
        = (Some (Add fs w0 path cb recursive).1,
           WatcherError <$> (Add fs w0 path cb recursive).2)
        /\ gfsnotify.Remove (gfsnotify.global (inl watch)) fs path
           = (Some (Remove fs w0 path).1,
              WatcherError <$> (Remove fs w0 path).2)
        /\ (RealPath fs path <> "" -> IsDir fs path = false ->
            gfsnotify.Add (gfsnotify.global (inl watch)) fs path cb recursive
            = (Some (mkWatcher (fsnotify_Add (RealPath fs path) watch).1
                               {[RealPath fs path := [cb]]}),
               None))).
Proof.
  split.
  - intros err. repeat split.
  - intros watch w0. unfold gfsnotify.global, gfsnotify.Add, gfsnotify.Remove.
    simpl. fold w0. split; [|split].
    + now destruct (Add fs _ path cb recursive).
    + now destruct (Remove fs _ path).
    + intros Hres Hdir. unfold Add. rewrite Hdir. simpl.
      rewrite addWatch_resolved by exact Hres. simpl.
      unfold register. rewrite lookup_empty. simpl.
      now rewrite insert_empty.
Qed.

End PackageFacts.

(** ** The laws at concrete inputs *)

Section MoreWitnesses.
Import scenario more_scenarios.

Lemma fresh_nonempty : lists_nonempty fresh.
Proof. intros k lst Hk. simpl in Hk. now rewrite lookup_empty in Hk. Qed.

Lemma watching_nonempty : lists_nonempty watching.
Proof. apply Add_nonempty, fresh_nonempty. Qed.

Lemma tree_members_resolve :
  Forall (fun v => RealPath tree v <> "") (members tree "/tmp/w" []).
Proof. exact tree_resolves. Qed.

Lemma Add_then_lookup_witness :
  ("/tmp/w/sub/b" ∈ members tree "/tmp/w" [])
  /\ getCallbacks 1 (Add tree fresh "/tmp/w" 7 []).1
       (RealPath tree "/tmp/w/sub/b")
     = Some (Some (RealPath tree "/tmp/w/sub/b")).
Proof.
  assert ("/tmp/w/sub/b" ∈ members tree "/tmp/w" []) as Hin
    by (apply (bool_decide_unpack _); vm_compute; exact I).
  split; [exact Hin|].
  apply (Add_then_lookup tree fresh "/tmp/w" 7 [] 0 "/tmp/w/sub/b"
           tree_members_resolve Hin).
  vm_compute. discriminate.
Defined.

Lemma Add_only_appends_witness :
  callbacks watching !! "/tmp/w" = Some [7]
  /\ exists l1,
       callbacks (Add tree watching "/tmp/w" 9 [false]).1 !! "/tmp/w"
       = Some ([7] ++ l1)%list.
Proof.
  split; [reflexivity|].
  apply (Add_only_appends tree watching "/tmp/w" 9 [false] "/tmp/w" [7]).
  reflexivity.
Defined.

Lemma Remove_frame_witness :
  ("/tmp/w/a.txt" ∉ removal_members tree "/tmp/w/sub")
  /\ callbacks (Remove tree watching "/tmp/w/sub").1 !! "/tmp/w/a.txt"
     = callbacks watching !! "/tmp/w/a.txt".
Proof.
  assert ("/tmp/w/a.txt" ∉ removal_members tree "/tmp/w/sub") as Hout
    by (apply (bool_decide_unpack _); vm_compute; exact I).
  split; [exact Hout|].
  apply (Remove_frame tree watching "/tmp/w/sub" "/tmp/w/a.txt" Hout).
Defined.

Lemma Remove_success_cascades_witness :
  (Remove tree watching "/tmp/w").2 = None
  /\ ("/tmp/w/sub/b" ∈ removal_members tree "/tmp/w")
  /\ callbacks (Remove tree watching "/tmp/w").1 !! "/tmp/w/sub/b" = None.
Proof.
  assert ("/tmp/w/sub/b" ∈ removal_members tree "/tmp/w") as Hin
    by (apply (bool_decide_unpack _); vm_compute; exact I).
  split; [reflexivity|]. split; [exact Hin|].
  apply (Remove_success_cascades tree watching "/tmp/w" "/tmp/w/sub/b");
    [reflexivity | exact Hin].
Defined.

Lemma Remove_stops_at_first_failure_witness :
  let w := (Add tree full "/tmp/w" 7 []).1 in
  removal_members tree "/tmp/w"
  = ([] ++ "/tmp/w" :: ["/tmp/w/a.txt"; "/tmp/w/sub"; "/tmp/w/sub/b"])%list
  /\ (Remove tree w "/tmp/w").2
     = Some (NativeError "can't remove non-existent watch").
Proof.
  intros w. split; [reflexivity|].
  apply (Remove_stops_at_first_failure tree w "/tmp/w" [] "/tmp/w"
           ["/tmp/w/a.txt"; "/tmp/w/sub"; "/tmp/w/sub/b"]
           (NativeError "can't remove non-existent watch"));
    reflexivity.
Defined.

Lemma Add_then_Remove_restores_witness :
  (Remove tree (Add tree fresh "/tmp/w" 7 []).1 "/tmp/w").2 = None
  /\ callbacks (Remove tree (Add tree fresh "/tmp/w" 7 []).1 "/tmp/w").1
     = callbacks fresh.
Proof.
  split; [reflexivity|].
  apply (Add_then_Remove_restores tree fresh "/tmp/w" 7 []);
    [|intros u _; apply lookup_empty|reflexivity].
  apply Forall_forall. vm_compute. repeat constructor.
Defined.

Lemma Remove_keeps_other_spelling_witness :
  IsDir in_workdir "a.txt" = false
  /\ RealPath in_workdir "a.txt" = "/tmp/w/a.txt"
  /\ callbacks (Remove in_workdir (Add in_workdir fresh "a.txt" 7 []).1
                  "a.txt").1 !! RealPath in_workdir "a.txt"
     = Some (default [] (callbacks fresh !! RealPath in_workdir "a.txt")
             ++ [7])%list.
Proof.
  split; [reflexivity|]. split; [reflexivity|].
  apply (Remove_keeps_other_spelling in_workdir fresh "a.txt" 7 []);
    [reflexivity | vm_compute; discriminate | vm_compute; discriminate].
Defined.

Lemma registry_lists_nonempty_witness :
  lists_nonempty watching
  /\ lists_nonempty (Add tree watching "/tmp/w" 9 [false]).1
  /\ lists_nonempty (Remove tree watching "/tmp/w/sub").1.
Proof.
  split; [exact watching_nonempty|].
  destruct (registry_lists_nonempty tree watching watching_nonempty)
    as (HAdd & HRemove & _).
  split; [apply HAdd | apply HRemove].
Defined.


Lemma event_dispatched_to_nearest_parent_witness :
  callbacks watching !! "/tmp/w/new/deep.txt" = None
  /\ ancestor 2 "/tmp/w/new/deep.txt" = "/tmp/w"
  /\ eventStep 16 tree watching (mkEvent "/tmp/w/new/deep.txt" WRITE)
     = Some (Dispatched watching (mkEvent "/tmp/w/new/deep.txt" WRITE) [7]).
Proof.
  split; [reflexivity|]. split; [reflexivity|].
  apply (event_dispatched_to_nearest_parent 16 tree watching
           (mkEvent "/tmp/w/new/deep.txt" WRITE) 2 [7]);
    [reflexivity | reflexivity | | vm_compute; discriminate
     | reflexivity | lia].
  intros [|[|j]] Hj; [split; [vm_compute; discriminate | reflexivity]..|lia].
Defined.

Lemma grown_resolves :
  Forall (fun v => RealPath grown v <> "")
    ("/tmp/w/new" :: ScanDir grown "/tmp/w/new").
Proof. vm_compute. repeat constructor; discriminate. Qed.

Lemma new_directory_inherits_witness :
  getCallbacks 16 watching "/tmp/w/new" = Some (Some "/tmp/w")
  /\ exists w2 more,
       eventStep 16 grown watching (mkEvent "/tmp/w/new" CREATE)
       = Some (Dispatched w2 (mkEvent "/tmp/w/new" CREATE) ([7] ++ more)%list)
       /\ forall u cb,
            u ∈ "/tmp/w/new" :: ScanDir grown "/tmp/w/new" -> cb ∈ [7] ->
            exists lst, callbacks w2 !! RealPath grown u = Some lst
                        /\ cb ∈ lst.
Proof.
  split; [reflexivity|].
  apply (new_directory_inherits 16 grown watching
           (mkEvent "/tmp/w/new" CREATE) "/tmp/w" [7]);
    [reflexivity | reflexivity | reflexivity | exact grown_resolves
     | reflexivity | reflexivity].
Defined.

Lemma create_on_registered_directory_doubles_witness :
  let w := (Add grown watching "/tmp/w/new" 7 []).1 in
  callbacks w !! "/tmp/w/new" = Some [7]
  /\ exists w2,
       eventStep 1 grown w (mkEvent "/tmp/w/new" CREATE)
       = Some (Dispatched w2 (mkEvent "/tmp/w/new" CREATE) ([7] ++ [7])%list)
       /\ callbacks w2 = <["/tmp/w/new" := ([7] ++ [7])%list]> (callbacks w).
Proof.
  intros w. split; [reflexivity|].
  apply (create_on_registered_directory_doubles 0 grown w
           (mkEvent "/tmp/w/new" CREATE) [7]);
    try reflexivity; vm_compute; discriminate.
Defined.


Lemma watchLoop_forwards_in_order_witness :
  (CloseSignal ∉ [NativeEvent "/tmp/w/a.txt" WRITE; NativeErr "overflow";
                  NativeEvent "/tmp/w/sub" REMOVE])
  /\ watchLoop ([NativeEvent "/tmp/w/a.txt" WRITE; NativeErr "overflow";
                 NativeEvent "/tmp/w/sub" REMOVE]
                ++ CloseSignal :: [NativeEvent "/tmp/w" CREATE])%list [] []
     = ([mkEvent "/tmp/w/a.txt" WRITE; mkEvent "/tmp/w/sub" REMOVE], ["overflow"]).
Proof.
  assert (CloseSignal ∉ [NativeEvent "/tmp/w/a.txt" WRITE; NativeErr "overflow";
                         NativeEvent "/tmp/w/sub" REMOVE]) as Hopen.
  { intros H. repeat (apply elem_of_cons in H as [H|H]; [discriminate|]).
    inversion H. }
  split; [exact Hopen|].
  apply (proj1 (watchLoop_forwards_in_order _ [NativeEvent "/tmp/w" CREATE] [] []
                  Hopen)).
Defined.

Lemma package_functions_on_global_witness :
  RealPath tree "/tmp/w/a.txt" <> ""
  /\ IsDir tree "/tmp/w/a.txt" = false
  /\ gfsnotify.Add (gfsnotify.global (inl (inotify.mkState [] 8)))
       tree "/tmp/w/a.txt" 7 []
     = (Some (mkWatcher
                (fsnotify_Add (RealPath tree "/tmp/w/a.txt")
                   (inotify.mkState [] 8)).1
                {[RealPath tree "/tmp/w/a.txt" := [7]]}),
        None).
Proof.
  assert (RealPath tree "/tmp/w/a.txt" <> "") as Hres
    by (vm_compute; discriminate).
  split; [exact Hres|]. split; [reflexivity|].
  apply (proj2 (package_functions_on_global tree "/tmp/w/a.txt" 7 [])
           (inotify.mkState [] 8)); [exact Hres | reflexivity].
Defined.

End MoreWitnesses.
